(** * Support Agent: the session query pipeline

    A shallow embedding of the TypeScript sources of the support agent:
    the class [SupportAgent] of [src/agent/index.ts] with its event
    filter, answer assembler and [query]; [parseInput]; and the provider
    tables and key checks of the earlier agent class. The properties
    stated about them follow the definitions. The definitions go on with
    the model filter and the provider listing, the [query] of the earlier
    class, the line handler of the command loop, and the model table of
    the first agent class.

    Conventions of the embedding:
    - a JavaScript string is the list of its UTF-16 code units
      ([jsstring]); [str] turns an ASCII literal into one;
    - the event payloads, which the source inspects through [any]-typed
      property probes, are records whose optional fields are [option]s:
      [None] is an absent (undefined) property, [Some v] a present one of
      the type the agent server declares for it;
    - token counts are JavaScript numbers holding integers, modelled in
      [Z]; a cost is a rational;
    - a [Map<string,string>] is a [gmap]; arrays are lists; an object
      literal read by a computed key is the [gmap] of its own properties
      together with the properties it inherits from [Object.prototype];
    - the asynchronous event feed is a finite list of events followed by
      the way the iteration ends: normally, by a thrown error, or never;
      a feed that never ends is given by its events one after the other
      and looked at after each number of deliveries;
    - a thrown error is given by its message;
    - the calls an operation makes on the server are recorded in a log;
      what is written to the console is left out. *)

From Stdlib Require Import ZArith NArith QArith_base Ascii String Sorted.
From stdpp Require Import gmap.

Local Open Scope list_scope.

(** ** JavaScript strings *)

Abbreviation jsstring := (list N).

(** The code units of an ASCII literal. *)
Definition str (s : string) : jsstring :=
  map N_of_ascii (list_ascii_of_string s).
Arguments str s%_string.

(** ECMAScript LineTerminator: LF, CR, LS, PS. *)
Definition isLineTerminator (c : N) : bool :=
  (c =? 10)%N || (c =? 13)%N || (c =? 8232)%N || (c =? 8233)%N.

(** ECMAScript WhiteSpace: TAB, VT, FF, SP, NBSP, ZWNBSP and the space
    separators U+1680, U+2000..U+200A, U+202F, U+205F, U+3000. *)
Definition isWhiteSpace (c : N) : bool :=
  (c =? 9)%N || (c =? 11)%N || (c =? 12)%N || (c =? 32)%N || (c =? 160)%N
  || (c =? 5760)%N || ((8192 <=? c)%N && (c <=? 8202)%N)
  || (c =? 8239)%N || (c =? 8287)%N || (c =? 12288)%N || (c =? 65279)%N.

(** What [String.prototype.trim] strips and what the regular expression
    class [\s] matches. *)
Definition isSpace (c : N) : bool := isWhiteSpace c || isLineTerminator c.

Fixpoint trimStart (s : jsstring) : jsstring :=
  match s with
  | c :: rest => if isSpace c then trimStart rest else s
  | [] => []
  end.

Definition trimEnd (s : jsstring) : jsstring := rev (trimStart (rev s)).

(** [s.trim()] *)
Definition trim (s : jsstring) : jsstring := trimEnd (trimStart s).

(** [a === b] on strings. *)
Definition strict_eq (a b : jsstring) : bool := bool_decide (a = b).

(** Truthiness of a string value: the empty string is falsy. *)
Definition truthy_str (s : jsstring) : bool :=
  match s with [] => false | _ :: _ => true end.

(** Truthiness of a possibly undefined (or null) string. *)
Definition truthy_ostr (o : option jsstring) : bool :=
  match o with Some s => truthy_str s | None => false end.

(** Truthiness of a possibly undefined number: 0 is falsy. *)
Definition truthy_onum (o : option Z) : bool :=
  match o with Some n => negb (n =? 0)%Z | None => false end.

(** [a || b] where [a] may be undefined and [b] is a number. *)
Definition num_or (a : option Z) (b : Z) : Z :=
  match a with
  | Some n => if (n =? 0)%Z then b else n
  | None => b
  end.

(** [a || b] where both may be undefined numbers. *)
Definition onum_or (a b : option Z) : option Z :=
  if truthy_onum a then a else b.

(** [a || b] where both may be undefined strings. *)
Definition ostr_or (a b : option jsstring) : option jsstring :=
  if truthy_ostr a then a else b.

(** [a || b] where [a] may be undefined and [b] is a string. *)
Definition str_or (a : option jsstring) (b : jsstring) : jsstring :=
  match a with
  | Some s => if truthy_str s then s else b
  | None => b
  end.

(** [s.split(sep)] for a one-unit separator: the pieces between the
    occurrences of [sep]; never empty. *)
Fixpoint split_on (sep : N) (s : jsstring) : list jsstring :=
  match s with
  | [] => [[]]
  | c :: rest =>
      if (c =? sep)%N then [] :: split_on sep rest
      else match split_on sep rest with
           | piece :: pieces => (c :: piece) :: pieces
           | [] => [[c]]
           end
  end.

(** ** Events of the agent server *)

Record Part := mkPart {
  part_id : jsstring;
  part_type : jsstring;
  part_role : option jsstring;
  part_text : option jsstring
}.

Record Tokens := mkTokens {
  tokens_input : option Z;
  tokens_output : option Z;
  tokens_prompt : option Z;
  tokens_completion : option Z;
  tokens_total : option Z
}.

Record Info := mkInfo {
  info_role : option jsstring;
  info_tokens : option Tokens;
  info_cost : option Q
}.

Record ErrorData := mkErrorData {
  data_message : option jsstring
}.

Record ErrorPayload := mkErrorPayload {
  error_name : option jsstring;
  error_data : option ErrorData
}.

(** [event.properties]; [props_sessionID = None] is an object without a
    [sessionID] key. Every event of the server carries this object, so the
    guards [props &&] and [?.] that the source puts on it always pass. *)
Record Props := mkProps {
  props_sessionID : option jsstring;
  props_part : option Part;
  props_info : option Info;
  props_error : option ErrorPayload
}.

Record Event := mkEvent {
  event_type : jsstring;
  event_properties : Props
}.

(** How iterating an asynchronous source goes on once its listed events
    are consumed: the source is exhausted, the pending read rejects with
    an error of the given message, or the read never settles. *)
Inductive Ending :=
  | Done
  | Throws (message : jsstring)
  | Hangs.

Record Stream := mkStream {
  items : list Event;
  ending : Ending
}.

Definition yield (ev : Event) (s : Stream) : Stream :=
  {| items := ev :: items s; ending := ending s |}.

(** ** Event Stream Filter *)

(** [props && "sessionID" in props && props.sessionID !== sessionID] *)
Definition other_session (sessionID : jsstring) (event : Event) : bool :=
  let props := event_properties event in
  match props_sessionID props with
  | Some sid => negb (strict_eq sid sessionID)
  | None => false
  end.

(** [event.type === "session.idle" &&
     event.properties?.sessionID === sessionID] *)
Definition idle_of (sessionID : jsstring) (event : Event) : bool :=
  strict_eq (event_type event) (str "session.idle")
  && match props_sessionID (event_properties event) with
     | Some sid => strict_eq sid sessionID
     | None => false
     end.

(** The generator [gen] of [sessionEvents], run over the events of the
    subscription [events.stream]. *)
Fixpoint gen (sessionID : jsstring) (events : list Event) (e : Ending)
  : Stream :=
  match events with
  | [] => {| items := []; ending := e |}
  | event :: rest =>
      if other_session sessionID event then gen sessionID rest e
      else if idle_of sessionID event
           then {| items := [event]; ending := Done |}
           else yield event (gen sessionID rest e)
  end.

Definition sessionEvents (sessionID : jsstring) (events : Stream) : Stream :=
  gen sessionID (items events) (ending events).

(** ** Answer Assembler *)

(** The two locals of [extractAnswerFromEvents]. *)
Record Assembly := mkAssembly {
  partIds : list jsstring;
  partText : gmap jsstring jsstring
}.

(** The part of an event that gets past the three [continue] guards. *)
Definition text_part (event : Event) : option Part :=
  if negb (strict_eq (event_type event) (str "message.part.updated"))
  then None
  else match props_part (event_properties event) with
       | None => None
       | Some part =>
           if negb (strict_eq (part_type part) (str "text")) then None
           else match part_role part with
                | Some r => if strict_eq r (str "user") then None
                            else Some part
                | None => Some part
                end
       end.

(** [String(part.text ?? '')]: the text, or the empty string. *)
Definition text_of (part : Part) : jsstring := default [] (part_text part).

(** One iteration of the loop over [events]. *)
Definition assemble_step (acc : Assembly) (event : Event) : Assembly :=
  match text_part event with
  | None => acc
  | Some part =>
      {| partIds := if bool_decide (part_id part ∈ partIds acc)
                    then partIds acc
                    else partIds acc ++ [part_id part];
         partText := <[part_id part := text_of part]> (partText acc) |}
  end.

Definition assemble (events : list Event) (acc : Assembly) : Assembly :=
  foldl assemble_step acc events.

(** [partIds.map((id) => partText.get(id) ?? '').join('').trim()] *)
Definition render (acc : Assembly) : jsstring :=
  trim (concat (map (fun id => default [] (partText acc !! id)) (partIds acc))).

Definition extractAnswerFromEvents (events : list Event) : jsstring :=
  render (assemble events {| partIds := []; partText := ∅ |}).

(** ** The agent *)

Inductive ThinkingMode := low | medium | high.

(** The handle of the spawned server process. *)
Definition ServerProc := N.

(** What [createOpencodeClient] is given. *)
Record OpencodeClient := mkClient {
  baseUrl : jsstring;
  directory : option jsstring
}.

(** The private fields of the class [SupportAgent]; [None] is [null]. *)
Record SupportAgent := mkAgent {
  client : option OpencodeClient;
  serverProc : option ServerProc;
  currentSessionId : option jsstring;
  repositoryPath : option jsstring;
  _currentModel : jsstring;
  _currentMode : ThinkingMode
}.

Record TokenUsage := mkTokenUsage {
  inputTokens : Z;
  outputTokens : Z;
  totalTokens : Z;
  cost : option Q
}.

Record QueryResult := mkQueryResult {
  response : jsstring;
  tokenUsage : option TokenUsage
}.

(** The argument of [client.session.prompt]. *)
Record PromptRequest := mkPrompt {
  path_id : jsstring;
  providerID : jsstring;
  modelID : option jsstring;
  prompt_text : jsstring
}.

(** The calls made on the server process and on the client. *)
Inductive Call :=
  | SpawnServer (model : jsstring)
  | StopServer (proc : option ServerProc)
  | SessionCreate
  | EventSubscribe
  | SessionPrompt (req : PromptRequest).

(** How an asynchronous method settles: its promise resolves, rejects
    with an error of the given message, or stays pending for ever. *)
Inductive Outcome (A : Type) :=
  | Returned (a : A)
  | Threw (message : jsstring)
  | Pending.
Arguments Returned {A} a.
Arguments Threw {A} message.
Arguments Pending {A}.

(** One run of a method: how it settles, the agent it leaves and the
    calls it made, in order. *)
Record Run (A : Type) := mkRun {
  outcome : Outcome A;
  after : SupportAgent;
  calls : list Call
}.
Arguments mkRun {A} outcome after calls.
Arguments outcome {A} r.
Arguments after {A} r.
Arguments calls {A} r.

(** What the server answers during one [query]: the [data.id] of
    [session.create()], [None] when the response carries no data, and the
    global event feed of [event.subscribe()]. *)
Record QueryEnv := mkQueryEnv {
  session_create : option jsstring;
  event_stream : Stream
}.

Definition setModel (a : SupportAgent) (modelString : jsstring) : SupportAgent :=
  {| client := client a; serverProc := serverProc a;
     currentSessionId := currentSessionId a;
     repositoryPath := repositoryPath a;
     _currentModel := modelString; _currentMode := _currentMode a |}.

Definition setThinkingMode (a : SupportAgent) (mode : ThinkingMode) : SupportAgent :=
  {| client := client a; serverProc := serverProc a;
     currentSessionId := currentSessionId a;
     repositoryPath := repositoryPath a;
     _currentModel := _currentModel a; _currentMode := mode |}.

Definition getCurrentSessionId (a : SupportAgent) : option jsstring :=
  currentSessionId a.

Definition setSessionId (a : SupportAgent) (sessionId : jsstring) : SupportAgent :=
  {| client := client a; serverProc := serverProc a;
     currentSessionId := Some sessionId;
     repositoryPath := repositoryPath a;
     _currentModel := _currentModel a; _currentMode := _currentMode a |}.

Definition setRepositoryPath (a : SupportAgent) (path : jsstring) : SupportAgent :=
  {| client := client a; serverProc := serverProc a;
     currentSessionId := currentSessionId a;
     repositoryPath := Some path;
     _currentModel := _currentModel a; _currentMode := _currentMode a |}.

(** [start()]. [spawnServer] is given by what it does: it rejects with a
    message, or resolves to the process and the address it listens on. *)
Definition start (a : SupportAgent) (spawned : jsstring + ServerProc * jsstring)
  : Run unit :=
  match spawned with
  | inl message =>
      mkRun (Threw message) a [SpawnServer (_currentModel a)]
  | inr (process, url) =>
      mkRun (Returned ())
        {| client := Some {| baseUrl := url;
                             directory := if truthy_ostr (repositoryPath a)
                                          then repositoryPath a else None |};
           serverProc := Some process;
           currentSessionId := currentSessionId a;
           repositoryPath := repositoryPath a;
           _currentModel := _currentModel a; _currentMode := _currentMode a |}
        [SpawnServer (_currentModel a)]
  end.

(** Modelled from the spec: [stopServer] of [./server] is not among the
    sources. The supervisor's stop sends the termination signal, waits
    the grace period and returns; stopping when nothing runs is a no-op
    and failures of the kill are swallowed. So the call is recorded and
    always resolves. *)
Definition stopServer (proc : option ServerProc) : list Call :=
  [StopServer proc].

(** [stop()] *)
Definition stop (a : SupportAgent) : Run unit :=
  mkRun (Returned ())
    {| client := None; serverProc := None; currentSessionId := None;
       repositoryPath := repositoryPath a;
       _currentModel := _currentModel a; _currentMode := _currentMode a |}
    (stopServer (serverProc a)).

(** [restart()] *)
Definition restart (a : SupportAgent) (spawned : jsstring + ServerProc * jsstring)
  : Run unit :=
  let stopped := stop a in
  let started := start (after stopped) spawned in
  mkRun (outcome started) (after started) (calls stopped ++ calls started).

(** [const [providerID, modelID] = this._currentModel.split("/")]: the
    first piece, and the second when there is one. *)
Definition parse_model (model : jsstring) : jsstring * option jsstring :=
  match split_on 47 model with
  | [] => ([], None)
  | [p] => (p, None)
  | p :: m :: _ => (p, Some m)
  end.

(** The three locals of the collecting loop of [query]. *)
Record Pump := mkPump {
  sessionError : option jsstring;
  usage : option TokenUsage;
  collectedEvents : list Event
}.

(** [props?.error?.data?.message || props?.error?.name ||
     "Unknown error occurred"] *)
Definition error_message (event : Event) : jsstring :=
  let error : option ErrorPayload := props_error (event_properties event) in
  let data : option ErrorData := error ≫= error_data in
  str_or (ostr_or (data ≫= data_message) (error ≫= error_name))
         (str "Unknown error occurred").

(** The object assigned to [tokenUsage], with [cost] added when truthy. *)
Definition usage_of (info : Info) (tokens : Tokens) : TokenUsage :=
  {| inputTokens := num_or (onum_or (tokens_input tokens) (tokens_prompt tokens)) 0;
     outputTokens := num_or (onum_or (tokens_output tokens) (tokens_completion tokens)) 0;
     totalTokens := num_or (tokens_total tokens)
                      (num_or (tokens_input tokens) 0 + num_or (tokens_output tokens) 0);
     cost := match info_cost info with
             | Some c => if (Qnum c =? 0)%Z then None else Some c
             | None => None
             end |}.

(** The body of [for await (const event of eventStream)]. *)
Definition pump_step (st : Pump) (event : Event) : Pump :=
  let collected := collectedEvents st ++ [event] in
  if strict_eq (event_type event) (str "message.updated") then
    match props_info (event_properties event) with
    | Some info =>
        match info_role info, info_tokens info with
        | Some role, Some tokens =>
            if strict_eq role (str "assistant")
            then mkPump (sessionError st) (Some (usage_of info tokens)) collected
            else mkPump (sessionError st) (usage st) collected
        | _, _ => mkPump (sessionError st) (usage st) collected
        end
    | None => mkPump (sessionError st) (usage st) collected
    end
  else if strict_eq (event_type event) (str "session.error") then
    mkPump (Some (error_message event)) (usage st) collected
  else mkPump (sessionError st) (usage st) collected.

Definition pump (events : list Event) : Pump :=
  foldl pump_step (mkPump None None []) events.

(** What follows the loop: the [catch] for a failing stream, the
    [throw] for a truthy [sessionError], and the result otherwise. *)
Definition settle (st : Pump) (e : Ending) : Outcome QueryResult :=
  match e with
  | Hangs => Pending
  | _ =>
      let sessionError :=
        match e with Throws message => Some message | _ => sessionError st end in
      match sessionError with
      | Some (c :: message) => Threw (c :: message)
      | _ =>
          let responseText := extractAnswerFromEvents (collectedEvents st) in
          Returned {| response := if truthy_str responseText then responseText
                                  else str "(No response received)";
                      tokenUsage := usage st |}
      end
  end.

(** The session a [query] works on: the cached one when truthy, else the
    one [session.create()] returns. *)
Definition session_for (a : SupportAgent) (env : QueryEnv) : option jsstring :=
  if truthy_ostr (currentSessionId a) then currentSessionId a
  else session_create env.

(** [query(input, source)] *)
Definition query (a : SupportAgent) (input : jsstring) (source : option jsstring)
  (env : QueryEnv) : Run QueryResult :=
  match client a with
  | None => mkRun (Threw (str "Agent not started")) a []
  | Some _ =>
      let fullQuery :=
        match source with
        | Some (c :: s) =>
            str "Using the source '" ++ (c :: s) ++ str "', please answer: " ++ input
        | _ => input
        end in
      let creates := negb (truthy_ostr (currentSessionId a)) in
      match session_for a env with
      | None => mkRun (Threw (str "Failed to create session")) a [SessionCreate]
      | Some sessionID =>
          let a' :=
            {| client := client a; serverProc := serverProc a;
               currentSessionId := Some sessionID;
               repositoryPath := repositoryPath a;
               _currentModel := _currentModel a;
               _currentMode := _currentMode a |} in
          let '(provider, model) := parse_model (_currentModel a') in
          let eventStream := sessionEvents sessionID (event_stream env) in
          let request := SessionPrompt
            {| path_id := sessionID; providerID := provider; modelID := model;
               prompt_text := fullQuery |} in
          mkRun (settle (pump (items eventStream)) (ending eventStream)) a'
                ((if creates then [SessionCreate] else [])
                 ++ [EventSubscribe; request])
      end
  end.

(** The public operations that change, or may change, the agent. *)
Inductive Op :=
  | OpSetModel (modelString : jsstring)
  | OpSetThinkingMode (mode : ThinkingMode)
  | OpSetSessionId (sessionId : jsstring)
  | OpSetRepositoryPath (path : jsstring)
  | OpQuery (input : jsstring) (source : option jsstring) (env : QueryEnv)
  | OpStart (spawned : jsstring + ServerProc * jsstring)
  | OpStop
  | OpRestart (spawned : jsstring + ServerProc * jsstring).

(** The agent after one operation. *)
Definition exec (a : SupportAgent) (op : Op) : SupportAgent :=
  match op with
  | OpSetModel m => setModel a m
  | OpSetThinkingMode mode => setThinkingMode a mode
  | OpSetSessionId s => setSessionId a s
  | OpSetRepositoryPath p => setRepositoryPath a p
  | OpQuery input source env => after (query a input source env)
  | OpStart spawned => after (start a spawned)
  | OpStop => after (stop a)
  | OpRestart spawned => after (restart a spawned)
  end.

Definition exec_all (a : SupportAgent) (ops : list Op) : SupportAgent :=
  foldl exec a ops.

(** ** Parsing of the input line *)

Record ParsedInput := mkParsed {
  parsed_source : option jsstring;
  parsed_query : jsstring
}.

(** The tail of the pattern, a greedy capture of [.] up to the end
    anchor [$]: what is left of the input, when no line terminator is in
    it ([.] matches none). *)
Definition dot_star_end (s : jsstring) : option jsstring :=
  if forallb (fun c => negb (isLineTerminator c)) s then Some s else None.

(** [\s*] followed by that tail. The star is greedy: one more space is
    tried first, and none when that fails. The result is group 2. *)
Fixpoint spaces_then_rest (s : jsstring) : option jsstring :=
  match s with
  | c :: rest =>
      if isSpace c then
        match spaces_then_rest rest with
        | Some q => Some q
        | None => dot_star_end s
        end
      else dot_star_end s
  | [] => dot_star_end []
  end.

(** Group 1, a lazy capture of [.], followed by the closing bracket and
    the rest of the pattern. The star is lazy: closing the group here is
    tried first, and one more unit is taken into it when that fails.
    [seen] is the group so far; the result is groups 1 and 2. *)
Fixpoint lazy_group (seen s : jsstring) : option (jsstring * jsstring) :=
  match s with
  | [] => None
  | c :: rest =>
      match (if (c =? 93)%N then spaces_then_rest rest else None) with
      | Some q => Some (seen, q)
      | None =>
          if isLineTerminator c then None else lazy_group (seen ++ [c]) rest
      end
  end.

(** [input.match] on the pattern: an opening bracket at the start of the
    input, lazy group 1, a closing bracket, greedy [\s*], greedy group 2,
    end of input. No flag is set: [.] excludes the line terminators and
    the anchors are those of the whole input. *)
Definition sourceMatch (input : jsstring) : option (jsstring * jsstring) :=
  match input with
  | c :: rest => if (c =? 91)%N then lazy_group [] rest else None
  | [] => None
  end.

Definition parseInput (input : jsstring) : ParsedInput :=
  match sourceMatch input with
  | Some (g1, g2) => {| parsed_source := Some (trim g1); parsed_query := trim g2 |}
  | None => {| parsed_source := None; parsed_query := trim input |}
  end.

(** ** Providers and their API keys *)

(** The own properties of the table, a [Record<string, string>] written
    as an object literal. *)
Definition PROVIDER_API_KEYS : gmap jsstring jsstring :=
  list_to_map
    [ (str "google", str "GOOGLE_API_KEY");
      (str "openai", str "OPENAI_API_KEY");
      (str "anthropic", str "ANTHROPIC_API_KEY");
      (str "deepseek", str "DEEPSEEK_API_KEY");
      (str "xai", str "XAI_API_KEY");
      (str "mistral", str "MISTRAL_API_KEY") ].

(** What reading a property of the table gives when it is not
    [undefined]: the string of an own entry, or a value that the table
    inherits, which is a built-in function, given by its name, or the
    object [Object.prototype] itself. *)
Inductive Value :=
  | VString (s : jsstring)
  | VFunction (name : jsstring)
  | VPrototype.

(** The properties of [Object.prototype], which an object literal
    inherits: [constructor] is the function [Object], [__proto__] is an
    accessor that gives the prototype of the object read, and the others
    are functions named as their property. *)
Definition Object_prototype : gmap jsstring Value :=
  list_to_map
    [ (str "constructor", VFunction (str "Object"));
      (str "hasOwnProperty", VFunction (str "hasOwnProperty"));
      (str "isPrototypeOf", VFunction (str "isPrototypeOf"));
      (str "propertyIsEnumerable", VFunction (str "propertyIsEnumerable"));
      (str "toLocaleString", VFunction (str "toLocaleString"));
      (str "toString", VFunction (str "toString"));
      (str "valueOf", VFunction (str "valueOf"));
      (str "__defineGetter__", VFunction (str "__defineGetter__"));
      (str "__defineSetter__", VFunction (str "__defineSetter__"));
      (str "__lookupGetter__", VFunction (str "__lookupGetter__"));
      (str "__lookupSetter__", VFunction (str "__lookupSetter__"));
      (str "__proto__", VPrototype) ].

(** [table[key]] on an object literal: the own property, else the
    inherited one, else [undefined]. *)
Definition get_property (table : gmap jsstring jsstring) (key : jsstring)
  : option Value :=
  match table !! key with
  | Some s => Some (VString s)
  | None => Object_prototype !! key
  end.

(** Truthiness of a value: functions and objects are truthy. *)
Definition truthy_value (v : Value) : bool :=
  match v with
  | VString s => truthy_str s
  | VFunction _ | VPrototype => true
  end.

(** The source text of a built-in function, which is what its conversion
    to a string gives. ECMAScript fixes the words and leaves the white
    space to the engine; the text is that of JavaScriptCore, the engine
    of the Bun runtime on which the class spawns its server. *)
Definition native_text (name : jsstring) : jsstring :=
  str "function " ++ name ++ str "() {" ++ 10%N :: str "    [native code]"
  ++ 10%N :: str "}".

(** The property key that a value used as a key is converted to. *)
Definition to_property_key (v : Value) : jsstring :=
  match v with
  | VString s => s
  | VFunction name => native_text name
  | VPrototype => str "[object Object]"
  end.

Definition FREE_PROVIDERS : list jsstring := [str "zai"; str "opencode"].

(** The whitelist of the providers offered for selection. *)
Definition allowedProviders : list jsstring :=
  [ str "zai"; str "opencode"; str "google"; str "openai"; str "deepseek";
    str "xai"; str "anthropic"; str "mistral" ].

Definition requiresApiKey (providerId : jsstring) : bool :=
  negb (bool_decide (providerId ∈ FREE_PROVIDERS)).

(** [getApiKeyEnvVar]; declared to return a string or [undefined], it
    returns whatever the table gives. *)
Definition getApiKeyEnvVar (providerId : jsstring) : option Value :=
  get_property PROVIDER_API_KEYS providerId.

(** [hasApiKey]; [env] is [process.env], the variables that are set. The
    keys it is read by here, the six names of the table and the texts of
    the inherited values, are not names of properties that [process.env]
    inherits itself, so a variable that is not set reads as [undefined]. *)
Definition hasApiKey (env : gmap jsstring jsstring) (providerId : jsstring) : bool :=
  match get_property PROVIDER_API_KEYS providerId with
  | Some envVar =>
      if truthy_value envVar then truthy_ostr (env !! to_property_key envVar)
      else true
  | None => true
  end.

(** [process.env[envVar] = input], done under [if (envVar)]. *)
Definition set_key (env : gmap jsstring jsstring) (envVar : option Value)
  (input : jsstring) : gmap jsstring jsstring :=
  match envVar with
  | Some v => if truthy_value v then <[to_property_key v := input]> env else env
  | None => env
  end.

(** ** Reference formulations and sample data *)

(** An event carries no [sessionID], or carries the target's. *)
Definition qualifies (sessionID : jsstring) (event : Event) : bool :=
  match props_sessionID (event_properties event) with
  | None => true
  | Some sid => bool_decide (sid = sessionID)
  end.

(** A bare event of the given type, for the given session if any. *)
Definition plain_event (type : jsstring) (sid : option jsstring) : Event :=
  {| event_type := type;
     event_properties :=
       {| props_sessionID := sid; props_part := None;
          props_info := None; props_error := None |} |}.

Definition session_idle (sid : jsstring) : Event :=
  plain_event (str "session.idle") (Some sid).

(** A [message.part.updated] event for a text part. *)
Definition part_updated (sid id : jsstring) (role : option jsstring)
  (text : jsstring) : Event :=
  {| event_type := str "message.part.updated";
     event_properties :=
       {| props_sessionID := Some sid;
          props_part := Some {| part_id := id; part_type := str "text";
                                part_role := role;
                                part_text := Some text |};
          props_info := None; props_error := None |} |}.

(** A [message.updated] event of an assistant message. *)
Definition message_updated (sid : jsstring) (tokens : Tokens) : Event :=
  {| event_type := str "message.updated";
     event_properties :=
       {| props_sessionID := Some sid; props_part := None;
          props_info := Some {| info_role := Some (str "assistant");
                                info_tokens := Some tokens;
                                info_cost := None |};
          props_error := None |} |}.

(** A [session.error] event with a structured message. *)
Definition session_error (sid message : jsstring) : Event :=
  {| event_type := str "session.error";
     event_properties :=
       {| props_sessionID := Some sid; props_part := None;
          props_info := None;
          props_error :=
            Some {| error_name := Some (str "APIError");
                    error_data := Some {| data_message := Some message |} |}
       |} |}.

(** A started agent with the given cached session and model. *)
Definition started (sid : option jsstring) (model : jsstring) : SupportAgent :=
  {| client := Some {| baseUrl := str "http://127.0.0.1:4096"; directory := None |};
     serverProc := Some 1%N;
     currentSessionId := sid;
     repositoryPath := None;
     _currentModel := model;
     _currentMode := medium |}.

(** The [part] of an event, whatever its type. *)
Definition event_part (event : Event) : option Part :=
  props_part (event_properties event).

(** The parts that contribute to the answer, in order of arrival. *)
Definition text_parts (events : list Event) : list Part :=
  omap text_part events.

(** The distinct ids of a list, each at its first occurrence. *)
Fixpoint first_seen (ids : list jsstring) : list jsstring :=
  match ids with
  | [] => []
  | id :: rest => id :: filter (λ x, x ≠ id) (first_seen rest)
  end.

(** The text of the last part recorded under an id; empty if none. *)
Definition latest_text (parts : list Part) (id : jsstring) : jsstring :=
  match last (filter (λ p, part_id p = id) parts) with
  | Some p => text_of p
  | None => []
  end.

(** The answer read off the contributing parts. *)
Definition assembled (parts : list Part) : jsstring :=
  trim (concat (map (latest_text parts) (first_seen (map part_id parts)))).

(** [props?.error?.data?.message] *)
Definition structured_message (event : Event) : option jsstring :=
  match props_error (event_properties event) with
  | Some error =>
      match error_data error with
      | Some data => data_message data
      | None => None
      end
  | None => None
  end.

(** [props?.error?.name] *)
Definition name_of_error (event : Event) : option jsstring :=
  match props_error (event_properties event) with
  | Some error => error_name error
  | None => None
  end.

(** The operations that leave the cached session alone: all but
    [setSessionId], [stop] and [restart]. *)
Definition keeps_session (op : Op) : Prop :=
  match op with
  | OpSetSessionId _ | OpStop | OpRestart _ => False
  | _ => True
  end.

(** The operations other than [start] and [restart]. *)
Definition not_start (op : Op) : Prop :=
  match op with
  | OpStart _ | OpRestart _ => False
  | _ => True
  end.

(** A feed that never ends, given by its events one after the other, as
    it stands when the first [n] of them are delivered: the read of the
    next one has not settled. *)
Definition delivered (feed : nat → Event) (n : nat) : Stream :=
  {| items := map feed (seq 0 n); ending := Hangs |}.

(** ** The models offered *)

(** A pattern of [excludedModelPatterns]: a literal looked for anywhere
    in the subject, or one that must end with the subject (the anchor
    [$]), both with the flag [i]. *)
Inductive Pattern :=
  | Anywhere (literal : jsstring)
  | AtEnd (literal : jsstring).

(** Canonicalize of the flag [i], on the ASCII letters. The literals are
    ASCII, and a unit outside ASCII never canonicalizes into ASCII, so
    comparing units canonicalized this way decides as the engine does. *)
Definition canonicalize (c : N) : N :=
  if (97 <=? c)%N && (c <=? 122)%N then (c - 32)%N else c.

(** The literal matched at the start of the subject: what follows it. *)
Fixpoint match_literal (literal subject : jsstring) : option jsstring :=
  match literal, subject with
  | [], _ => Some subject
  | p :: literal', c :: subject' =>
      if (canonicalize p =? canonicalize c)%N
      then match_literal literal' subject' else None
  | _ :: _, [] => None
  end.

(** The pattern matched at the start of the subject. *)
Definition match_here (pattern : Pattern) (subject : jsstring) : bool :=
  match pattern with
  | Anywhere literal =>
      match match_literal literal subject with Some _ => true | None => false end
  | AtEnd literal =>
      match match_literal literal subject with Some [] => true | _ => false end
  end.

(** [pattern.test(subject)]: the match is tried at each index in turn,
    the end of the subject included. *)
Fixpoint test (pattern : Pattern) (subject : jsstring) : bool :=
  match_here pattern subject
  || match subject with
     | [] => false
     | _ :: rest => test pattern rest
     end.

Definition excludedModelPatterns : list Pattern :=
  [ Anywhere (str "embedding"); Anywhere (str "tts"); Anywhere (str "audio");
    Anywhere (str "live"); Anywhere (str "image"); Anywhere (str "nano");
    AtEnd (str "-8b"); Anywhere (str "lite"); Anywhere (str "gemini-1.");
    Anywhere (str "gemini-2.0"); AtEnd (str "-latest") ].

(** [filterModels(models)]. Of the object [models] only the keys are
    read: it is given as the list [Object.keys] makes of it. *)
Definition filterModels (models : list jsstring) : list jsstring :=
  List.filter
    (λ modelId, negb (existsb (λ pattern, test pattern modelId)
                              excludedModelPatterns))
    models.

(** ** The providers offered *)

(** A provider as the server lists it: its id and, when present, its
    models, given by their keys. *)
Record Provider := mkProvider {
  provider_id : jsstring;
  provider_models : option (list jsstring)
}.

(** [list.indexOf(x)] *)
Fixpoint indexOf (l : list jsstring) (x : jsstring) : Z :=
  match l with
  | [] => -1
  | y :: rest =>
      if bool_decide (y = x) then 0
      else let i := indexOf rest x in if (i <? 0)%Z then -1 else (i + 1)%Z
  end.

(** [array.sort(compare)]. The sort is stable, and for a comparison that
    orders consistently, as the ones used here do, that fixes the result:
    the one reached by inserting each element, from the last to the
    first, before the first element it does not come after. *)
Fixpoint insert_by {A} (compare : A → A → Z) (x : A) (sorted : list A) : list A :=
  match sorted with
  | [] => [x]
  | y :: rest =>
      if (compare x y <=? 0)%Z then x :: y :: rest
      else y :: insert_by compare x rest
  end.

Fixpoint sort_by {A} (compare : A → A → Z) (l : list A) : list A :=
  match l with
  | [] => []
  | x :: rest => insert_by compare x (sort_by compare rest)
  end.

(** The answer of [client.provider.list()]: [None] when it carries no
    data; else the field [all] of the data, [None] when it is absent. *)
Definition ProviderListing := option (option (list Provider)).

(** [getAvailableProviders()], for the whitelist [ALLOWED_PROVIDERS] of
    the configuration, taken as a parameter. *)
Definition getAvailableProviders (ALLOWED_PROVIDERS : list jsstring)
  (a : SupportAgent) (response : ProviderListing) : Outcome (list Provider) :=
  match client a with
  | None => Threw (str "Agent not started")
  | Some _ =>
      match response with
      | None => Returned []
      | Some data =>
          let allProviders := default [] data in
          Returned
            (sort_by
               (λ a b, (indexOf ALLOWED_PROVIDERS (provider_id a)
                        - indexOf ALLOWED_PROVIDERS (provider_id b))%Z)
               (List.filter
                  (λ p, bool_decide (provider_id p ∈ ALLOWED_PROVIDERS))
                  allProviders))
      end
  end.

(** [getAvailableModels()] of the earlier agent class: the same, with
    its own whitelist. *)
Definition getAvailableModels (a : SupportAgent) (response : ProviderListing)
  : Outcome (list Provider) :=
  getAvailableProviders allowedProviders a response.

(** A literal occurs in a string, up to the case of ASCII letters. *)
Definition occurs (literal s : jsstring) : Prop :=
  ∃ before found behind,
    s = before ++ found ++ behind
    ∧ map canonicalize found = map canonicalize literal.

(** A literal ends a string, up to the case of ASCII letters. *)
Definition ends (literal s : jsstring) : Prop :=
  ∃ before found,
    s = before ++ found
    ∧ map canonicalize found = map canonicalize literal.

(** What a pattern looks for. *)
Definition matches (pattern : Pattern) (s : jsstring) : Prop :=
  match pattern with
  | Anywhere literal => occurs literal s
  | AtEnd literal => ends literal s
  end.

(** ** The earlier agent class *)

(** The agent class of the command loop has the same fields, setters,
    key checks and provider listing; its [query] waits for the answer of
    the prompt instead of reading the event feed. *)
Module Earlier.

(** A part of the answered message. *)
Record ResponsePart := mkResponsePart {
  rp_type : jsstring;
  rp_text : jsstring
}.

(** How [client.session.prompt] settles: it rejects, never settles, or
    resolves to a response, [None] without data, [Some None] with data
    that hold no parts. *)
Inductive PromptResponse :=
  | PromptRejects (message : jsstring)
  | PromptHangs
  | PromptResolves (data : option (option (list ResponsePart))).

Record World := mkWorld {
  created : option jsstring;
  prompted : PromptResponse
}.

(** [parts.filter((p) => p.type === 'text').map((p) => p.text)] *)
Definition texts (parts : list ResponsePart) : list jsstring :=
  map rp_text
      (List.filter (λ p, strict_eq (rp_type p) (str "text")) parts).

(** [pieces.join(separator)] *)
Fixpoint join (separator : jsstring) (pieces : list jsstring) : jsstring :=
  match pieces with
  | [] => []
  | [piece] => piece
  | piece :: rest => piece ++ separator ++ join separator rest
  end.

(** [query(input, source)] *)
Definition query (a : SupportAgent) (input : jsstring) (source : option jsstring)
  (w : World) : Run jsstring :=
  match client a with
  | None => mkRun (Threw (str "Agent not started")) a []
  | Some _ =>
      let fullQuery :=
        match source with
        | Some (c :: s) =>
            str "Using the source '" ++ (c :: s) ++ str "', please answer: " ++ input
        | _ => input
        end in
      let creates := negb (truthy_ostr (currentSessionId a)) in
      let session :=
        if truthy_ostr (currentSessionId a) then currentSessionId a
        else created w in
      match session with
      | None => mkRun (Threw (str "Failed to create session")) a [SessionCreate]
      | Some sessionID =>
          let a' :=
            {| client := client a; serverProc := serverProc a;
               currentSessionId := Some sessionID;
               repositoryPath := repositoryPath a;
               _currentModel := _currentModel a;
               _currentMode := _currentMode a |} in
          let '(provider, model) := parse_model (_currentModel a') in
          let payload :=
            {| path_id := sessionID; providerID := provider; modelID := model;
               prompt_text := fullQuery |} in
          mkRun
            match prompted w with
            | PromptRejects message => Threw message
            | PromptHangs => Pending
            | PromptResolves (Some (Some parts)) =>
                Returned (join [10%N] (texts parts))
            | PromptResolves _ => Threw (str "Failed to get response")
            end
            a'
            ((if creates then [SessionCreate] else []) ++ [SessionPrompt payload])
      end
  end.

End Earlier.

(** ** The command loop *)

(** [input.startsWith(prefix)] *)
Fixpoint startsWith (input prefix : jsstring) : bool :=
  match prefix, input with
  | [], _ => true
  | p :: prefix', c :: input' => (c =? p)%N && startsWith input' prefix'
  | _ :: _, [] => false
  end.

(** A unit that [toLowerCase] turns into the given lower-case ASCII
    letter: the letter, its capital and, for [k], the Kelvin sign. *)
Definition lowers_to (letter c : N) : bool :=
  (c =? letter)%N || (c =? letter - 32)%N
  || ((letter =? 107)%N && (c =? 8490)%N).

(** [input.toLowerCase() === "back"] *)
Definition says_back (input : jsstring) : bool :=
  match input with
  | [b; a; c; k] =>
      lowers_to 98 b && lowers_to 97 a && lowers_to 99 c && lowers_to 107 k
  | _ => false
  end.

(** The value of a unit as a digit of the radix, if it is one. *)
Definition digit_of (radix : Z) (c : N) : option Z :=
  let value :=
    if (48 <=? c)%N && (c <=? 57)%N then Some (Z.of_N c - 48)%Z
    else if (97 <=? c)%N && (c <=? 122)%N then Some (Z.of_N c - 87)%Z
    else if (65 <=? c)%N && (c <=? 90)%N then Some (Z.of_N c - 55)%Z
    else None in
  match value with
  | Some d => if (d <? radix)%Z then Some d else None
  | None => None
  end.

(** The number written by the longest run of digits at the start of the
    string; [None] when there is no digit. *)
Fixpoint parse_digits (radix : Z) (number : option Z) (s : jsstring) : option Z :=
  match s with
  | c :: rest =>
      match digit_of radix c with
      | Some d => parse_digits radix (Some (default 0 number * radix + d)%Z) rest
      | None => number
      end
  | [] => number
  end.

(** [parseInt(string)], without a radix; [None] is NaN. The result is the
    integer written; the Number the engine rounds a long run of digits to
    lies on the same side of every array length, which is all the command
    loop compares it with. *)
Definition parseInt (string : jsstring) : option Z :=
  let s := trimStart string in
  let '(sign, s) :=
    match s with
    | 45%N :: rest => ((-1)%Z, rest)
    | 43%N :: rest => (1%Z, rest)
    | _ => (1%Z, s)
    end in
  let '(radix, s) :=
    match s with
    | 48%N :: x :: rest =>
        if (x =? 120)%N || (x =? 88)%N then (16%Z, rest) else (10%Z, s)
    | _ => (10%Z, s)
    end in
  match parse_digits radix None s with
  | Some number => Some (sign * number)%Z
  | None => None
  end.

Inductive ReplState :=
  | normal
  | selecting_provider
  | selecting_model
  | entering_api_key.

(** The variables of [main] that the line handler reads and writes, the
    agent and [process.env]. *)
Record Repl := mkRepl {
  state : ReplState;
  availableProviders : list Provider;
  selectedProvider : option Provider;
  filteredModels : list jsstring;
  agent : SupportAgent;
  environment : gmap jsstring jsstring
}.

(** What the server answers while one line is handled. *)
Record LineWorld := mkLineWorld {
  listing : ProviderListing;
  answering : Earlier.World
}.

(** What a line makes the handler ask of the agent. *)
Inductive Request :=
  | ListProviders
  | Ask (query : jsstring) (source : option jsstring) (sent : list Call).

(** How the handling of a line ends: the loop goes on, the interface is
    closed, or a property of the null [selectedProvider] is read. *)
Inductive Handled :=
  | Continues (r : Repl) (requests : list Request)
  | Exits
  | Crashes.

Definition with_state (r : Repl) (s : ReplState) : Repl :=
  {| state := s; availableProviders := availableProviders r;
     selectedProvider := selectedProvider r;
     filteredModels := filteredModels r;
     agent := agent r; environment := environment r |}.

(** The listing of the models of the selected provider, which both the
    selection of a provider and the entry of a key end with. *)
Definition show_models (r : Repl) (provider : Provider)
  (env : gmap jsstring jsstring) : Handled :=
  let models := filterModels (default [] (provider_models provider)) in
  Continues
    {| state := match models with [] => normal | _ :: _ => selecting_model end;
       availableProviders := availableProviders r;
       selectedProvider := Some provider;
       filteredModels := models;
       agent := agent r; environment := env |}
    [].

(** [parseInt(input) - 1], when it is an index of the list. *)
Definition chosen {A} (input : jsstring) (l : list A) : option A :=
  match parseInt input with
  | None => None
  | Some number =>
      let index := (number - 1)%Z in
      if (index <? 0)%Z || (Z.of_nat (length l) <=? index)%Z then None
      else l !! Z.to_nat index
  end.

(** The handler of a line, run to its end before the next line comes. *)
Definition handle_line (r : Repl) (line : jsstring) (w : LineWorld) : Handled :=
  let input := trim line in
  let back := says_back input || strict_eq input (str "0") in
  match state r with
  | selecting_model =>
      if back then Continues (with_state r selecting_provider) []
      else match chosen input (filteredModels r) with
           | None => Continues r []
           | Some modelId =>
               match selectedProvider r with
               | None => Crashes
               | Some provider =>
                   Continues
                     {| state := normal;
                        availableProviders := availableProviders r;
                        selectedProvider := selectedProvider r;
                        filteredModels := filteredModels r;
                        agent := setModel (agent r)
                                   (provider_id provider ++ 47%N :: modelId);
                        environment := environment r |}
                     []
               end
           end
  | selecting_provider =>
      if back then Continues (with_state r normal) []
      else match chosen input (availableProviders r) with
           | None => Continues r []
           | Some provider =>
               if requiresApiKey (provider_id provider)
                  && negb (hasApiKey (environment r) (provider_id provider))
               then Continues
                      {| state := entering_api_key;
                         availableProviders := availableProviders r;
                         selectedProvider := Some provider;
                         filteredModels := filteredModels r;
                         agent := agent r; environment := environment r |}
                      []
               else show_models r provider (environment r)
           end
  | entering_api_key =>
      if back then Continues (with_state r normal) []
      else if (10 <? length input)%nat then
        match selectedProvider r with
        | None => Crashes
        | Some provider =>
            show_models r provider
              (set_key (environment r)
                 (getApiKeyEnvVar (provider_id provider)) input)
        end
      else Continues r []
  | normal =>
      if startsWith input (str "/exit") then Exits
      else if startsWith input (str "/model") || startsWith input (str "/models")
      then match getAvailableModels (agent r) (listing w) with
           | Returned [] =>
               Continues
                 {| state := normal; availableProviders := [];
                    selectedProvider := selectedProvider r;
                    filteredModels := filteredModels r;
                    agent := agent r; environment := environment r |}
                 [ListProviders]
           | Returned providers =>
               Continues
                 {| state := selecting_provider;
                    availableProviders := providers;
                    selectedProvider := selectedProvider r;
                    filteredModels := filteredModels r;
                    agent := agent r; environment := environment r |}
                 [ListProviders]
           | _ => Continues r [ListProviders]
           end
      else if startsWith input (str "/mode")
      then match split_on 32 input with
           | [_; name] =>
               let set mode :=
                 Continues
                   {| state := normal;
                      availableProviders := availableProviders r;
                      selectedProvider := selectedProvider r;
                      filteredModels := filteredModels r;
                      agent := setThinkingMode (agent r) mode;
                      environment := environment r |}
                   [] in
               if strict_eq name (str "low") then set low
               else if strict_eq name (str "medium") then set medium
               else if strict_eq name (str "high") then set high
               else Continues r []
           | _ => Continues r []
           end
      else match trim input with
           | [] => Continues r []
           | _ :: _ =>
               let parsed := parseInput input in
               let run := Earlier.query (agent r) (parsed_query parsed)
                            (parsed_source parsed) (answering w) in
               Continues
                 {| state := normal;
                    availableProviders := availableProviders r;
                    selectedProvider := selectedProvider r;
                    filteredModels := filteredModels r;
                    agent := after run; environment := environment r |}
                 [Ask (parsed_query parsed) (parsed_source parsed) (calls run)]
           end
  end.

(** The loop as [main] sets it up, for a started agent. *)
Definition repl_start (a : SupportAgent) (env : gmap jsstring jsstring) : Repl :=
  {| state := normal; availableProviders := []; selectedProvider := None;
     filteredModels := []; agent := a; environment := env |}.

(** The states the loop gets into, line after line. *)
Inductive reachable : Repl → Prop :=
  | reachable_start a env : reachable (repl_start a env)
  | reachable_line r line w r' requests :
      reachable r →
      handle_line r line w = Continues r' requests →
      reachable r'.

(** What holds of every state the loop gets into. *)
Definition well_formed (r : Repl) : Prop :=
  Forall (λ p, provider_id p ∈ allowedProviders) (availableProviders r)
  ∧ (state r = selecting_model ∨ state r = entering_api_key →
     ∃ provider, selectedProvider r = Some provider
                 ∧ provider_id provider ∈ allowedProviders)
  ∧ (state r = selecting_model →
     ∀ provider, selectedProvider r = Some provider →
       filteredModels r = filterModels (default [] (provider_models provider))
       ∧ (requiresApiKey (provider_id provider) = true →
          hasApiKey (environment r) (provider_id provider) = true)).

Definition crashes (h : Handled) : bool :=
  match h with Crashes => true | _ => false end.

(** The names the [/mode] command takes. *)
Definition mode_name (mode : ThinkingMode) : jsstring :=
  match mode with
  | low => str "low"
  | medium => str "medium"
  | high => str "high"
  end.

(** A listing with one free provider, a world that gives it, and the
    loop after [/model] and the choice of that provider. *)
Definition sample_provider : Provider :=
  {| provider_id := str "zai";
     provider_models := Some [str "glm-4.7"; str "glm-embedding"] |}.

Definition sample_world : LineWorld :=
  {| listing := Some (Some [sample_provider]);
     answering := {| Earlier.created := Some (str "ses_1");
                     Earlier.prompted := Earlier.PromptHangs |} |}.

Definition sample_choosing : Repl :=
  {| state := selecting_model;
     availableProviders := [sample_provider];
     selectedProvider := Some sample_provider;
     filteredModels := [str "glm-4.7"];
     agent := started None (str "google/gemini-2.5-flash");
     environment := ∅ |}.

(** A paid provider, and the loop waiting for its key. *)
Definition sample_paid : Provider :=
  {| provider_id := str "openai"; provider_models := Some [str "gpt-5"] |}.

Definition sample_entering : Repl :=
  {| state := entering_api_key;
     availableProviders := [sample_paid];
     selectedProvider := Some sample_paid;
     filteredModels := [];
     agent := started None (str "google/gemini-2.5-flash");
     environment := ∅ |}.

(** The call that only the later [query] makes. *)
Definition is_subscribe (c : Call) : bool :=
  match c with EventSubscribe => true | _ => false end.

(** ** The first agent class *)

(** The first agent class keeps one model string for each thinking mode
    and has no current model of its own. *)
Module First.

Record Agent := mkAgent {
  models : ThinkingMode → jsstring;
  currentMode : ThinkingMode
}.

(** The table the class starts with. *)
Definition initial : Agent :=
  {| models := λ mode,
       match mode with
       | low => str "google/gemini-2.5-flash"
       | medium => str "google/gemini-3-flash-preview"
       | high => str "google/gemini-3-pro-preview"
       end;
     currentMode := medium |}.

Definition same_mode (m m' : ThinkingMode) : bool :=
  match m, m' with
  | low, low | medium, medium | high, high => true
  | _, _ => false
  end.

(** [this.models[this.currentMode] = modelString] *)
Definition setModel (a : Agent) (modelString : jsstring) : Agent :=
  {| models := λ mode,
       if same_mode mode (currentMode a) then modelString else models a mode;
     currentMode := currentMode a |}.

Definition setThinkingMode (a : Agent) (mode : ThinkingMode) : Agent :=
  {| models := models a; currentMode := mode |}.

(** [this.models[this.currentMode]], the string [query] splits and
    [start] hands to the server. *)
Definition modelString (a : Agent) : jsstring := models a (currentMode a).

End First.

(** * Properties *)

(** ** Event Stream Filter *)

Section EventStreamFilter.

Variable sessionID : jsstring.
Implicit Types (ev : Event) (evs pre post : list Event) (e : Ending).

Lemma idle_of_not_other ev :
  idle_of sessionID ev = true → other_session sessionID ev = false.
Proof.
  unfold idle_of, other_session, strict_eq. simpl.
  destruct (props_sessionID (event_properties ev)) as [s|];
    [|by rewrite andb_false_r].
  intros [_ H]%andb_true_iff. by rewrite H.
Qed.

Lemma qualifies_other ev :
  qualifies sessionID ev = negb (other_session sessionID ev).
Proof.
  unfold qualifies, other_session, strict_eq. simpl.
  destruct (props_sessionID (event_properties ev)) as [s|]; [|done].
  by rewrite negb_involutive.
Qed.

Lemma gen_until_idle pre ev post e :
  idle_of sessionID ev = true →
  Forall (λ x, idle_of sessionID x = false) pre →
  gen sessionID (pre ++ ev :: post) e
  = {| items := List.filter (qualifies sessionID) pre ++ [ev]; ending := Done |}.
Proof.
  intros Hidle Hpre. induction Hpre as [|x pre Hx _ IH]; simpl.
  - by rewrite (idle_of_not_other _ Hidle), Hidle.
  - rewrite qualifies_other.
    destruct (other_session sessionID x); simpl; [done|].
    by rewrite Hx, IH.
Qed.

Lemma gen_no_idle evs e :
  Forall (λ x, idle_of sessionID x = false) evs →
  gen sessionID evs e
  = {| items := List.filter (qualifies sessionID) evs; ending := e |}.
Proof.
  intros Hevs. induction Hevs as [|x evs Hx _ IH]; simpl; [done|].
  rewrite qualifies_other.
  destruct (other_session sessionID x); simpl; [done|].
  by rewrite Hx, IH.
Qed.

(** C1. Whatever the global events and the target session, the filter
    yields, in source order, exactly the events that carry no [sessionID]
    or the target's, up to and including the first [session.idle] event of
    the target, where it ends; nothing that qualifies before that event is
    dropped and nothing after it is yielded. When no such event occurs
    every qualifying event is yielded and the sequence goes on as its
    source does. *)
Theorem sessionEvents_exact (source : Stream) :
  (∀ pre ev post,
      items source = pre ++ ev :: post →
      idle_of sessionID ev = true →
      Forall (λ x, idle_of sessionID x = false) pre →
      sessionEvents sessionID source
      = {| items := List.filter (qualifies sessionID) pre ++ [ev];
           ending := Done |})
  ∧ (Forall (λ x, idle_of sessionID x = false) (items source) →
     sessionEvents sessionID source
     = {| items := List.filter (qualifies sessionID) (items source);
          ending := ending source |}).
Proof.
  unfold sessionEvents. split.
  - intros pre ev post -> Hidle Hpre. by apply gen_until_idle.
  - apply gen_no_idle.
Qed.

End EventStreamFilter.

Lemma sessionEvents_exact_witness :
  sessionEvents (str "s1")
    {| items := [ plain_event (str "server.connected") None;
                  part_updated (str "s2") (str "p") None (str "other");
                  part_updated (str "s1") (str "a") None (str "Hi");
                  session_idle (str "s2");
                  session_idle (str "s1");
                  part_updated (str "s1") (str "a") None (str "late") ];
       ending := Hangs |}
  = {| items := [ plain_event (str "server.connected") None;
                  part_updated (str "s1") (str "a") None (str "Hi");
                  session_idle (str "s1") ];
       ending := Done |}.
Proof.
  apply (proj1 (sessionEvents_exact (str "s1") _)
           [ plain_event (str "server.connected") None;
             part_updated (str "s2") (str "p") None (str "other");
             part_updated (str "s1") (str "a") None (str "Hi");
             session_idle (str "s2") ]
           (session_idle (str "s1"))
           [ part_updated (str "s1") (str "a") None (str "late") ]).
  - reflexivity.
  - reflexivity.
  - repeat constructor.
Defined.

(** ** Answer Assembler *)

Lemma first_seen_elem (l : list jsstring) (x : jsstring) :
  x ∈ first_seen l ↔ x ∈ l.
Proof.
  induction l as [|a l IH]; simpl; [done|].
  rewrite !elem_of_cons, list_elem_of_filter, IH.
  destruct (decide (x = a)) as [->|Hne]; [tauto|]. tauto.
Qed.

Lemma first_seen_snoc (l : list jsstring) (x : jsstring) :
  first_seen (l ++ [x])
  = if bool_decide (x ∈ first_seen l) then first_seen l else first_seen l ++ [x].
Proof.
  induction l as [|a l IH]; simpl; [done|].
  rewrite IH. destruct (decide (x = a)) as [->|Hne].
  - rewrite (bool_decide_eq_true_2 (a ∈ a :: _)) by apply list_elem_of_here.
    f_equal. case_bool_decide; [done|].
    rewrite list.filter_app, (list.filter_singleton_False _ a []).
    + by rewrite app_nil_r.
    + intros H'. by apply H'.
  - case_bool_decide as Hx.
    + rewrite bool_decide_eq_true_2; [done|].
      apply list_elem_of_further, list_elem_of_filter. done.
    + rewrite bool_decide_eq_false_2.
      * by rewrite list.filter_app, (list.filter_singleton_True _ x []).
      * rewrite elem_of_cons, list_elem_of_filter. tauto.
Qed.

Lemma first_seen_app_seen (l l' : list jsstring) :
  (∀ x, x ∈ l' → x ∈ l) → first_seen (l ++ l') = first_seen l.
Proof.
  induction l' as [|x l' IH] using rev_ind; intros Hsub.
  - by rewrite app_nil_r.
  - rewrite app_assoc, first_seen_snoc, IH.
    + rewrite bool_decide_eq_true_2; [done|].
      apply first_seen_elem, Hsub, elem_of_app. right. apply list_elem_of_here.
    + intros y Hy. apply Hsub, elem_of_app. by left.
Qed.

Lemma latest_text_snoc parts p id :
  latest_text (parts ++ [p]) id
  = if bool_decide (part_id p = id) then text_of p else latest_text parts id.
Proof.
  unfold latest_text. rewrite list.filter_app.
  case_bool_decide as Hid.
  - by rewrite (list.filter_singleton_True _ p []), last_snoc.
  - by rewrite (list.filter_singleton_False _ p []), app_nil_r.
Qed.

(** The state the loop reaches, read off the contributing parts. *)
Lemma assemble_spec (events : list Event) :
  let acc := assemble events {| partIds := []; partText := ∅ |} in
  partIds acc = first_seen (map part_id (text_parts events))
  ∧ ∀ id, default [] (partText acc !! id) = latest_text (text_parts events) id.
Proof.
  induction events as [|ev events IH] using rev_ind; simpl.
  - split; [done|]. intros id. by rewrite lookup_empty.
  - unfold assemble, text_parts in *. rewrite foldl_snoc, omap_app. simpl.
    destruct IH as [IHids IHtext]. unfold assemble_step at 1 3.
    destruct (text_part ev) as [part|]; simpl.
    + split.
      * rewrite map_app. simpl map. by rewrite first_seen_snoc, IHids.
      * intros id. rewrite latest_text_snoc, lookup_insert.
        case_decide as Hid.
        -- by rewrite bool_decide_eq_true_2.
        -- by rewrite bool_decide_eq_false_2, IHtext.
    + by rewrite !app_nil_r.
Qed.

Lemma extractAnswerFromEvents_assembled (events : list Event) :
  extractAnswerFromEvents events = assembled (text_parts events).
Proof.
  unfold extractAnswerFromEvents, render, assembled.
  destruct (assemble_spec events) as [Hids Htext]. simpl in *.
  rewrite Hids. f_equal. f_equal. apply map_ext. intros id. apply Htext.
Qed.

Lemma text_part_Some (event : Event) (part : Part) :
  text_part event = Some part
  ↔ event_type event = str "message.part.updated"
    ∧ event_part event = Some part
    ∧ part_type part = str "text"
    ∧ part_role part ≠ Some (str "user").
Proof.
  unfold text_part, event_part, strict_eq.
  case_bool_decide as Htype; simpl; [|split; [done|tauto]].
  destruct (props_part (event_properties event)) as [p|];
    [|split; [done|by intros (_ & ? & _)]].
  case_bool_decide as Hpt; simpl;
    [|split; [done|intros (_ & [= <-] & ? & _); done]].
  destruct (part_role p) as [r|] eqn:Hr.
  - case_bool_decide as Hrole.
    + split; [done|]. intros (_ & [= <-] & _ & Hne). congruence.
    + split.
      * intros [= <-]. repeat split; [done..|congruence].
      * by intros (_ & -> & _).
  - split.
    + intros [= <-]. repeat split; [done..|congruence].
    + by intros (_ & -> & _).
Qed.

Lemma text_part_user (event : Event) (part : Part) :
  event_part event = Some part →
  part_role part = Some (str "user") →
  text_part event = None.
Proof.
  intros Hpart Hrole.
  destruct (text_part event) as [p|] eqn:Hp; [|done].
  apply text_part_Some in Hp as (_ & Hp & _ & Hne). congruence.
Qed.

Lemma trimStart_split (s : jsstring) :
  ∃ ws, s = ws ++ trimStart s ∧ forallb isSpace ws = true.
Proof.
  induction s as [|c s (ws & Hs & Hws)]; [by exists []|]. simpl.
  destruct (isSpace c) eqn:Hc.
  - exists (c :: ws). simpl. rewrite Hc, Hws. split; [by f_equal|done].
  - by exists [].
Qed.

Lemma trimStart_head (s : jsstring) c rest :
  trimStart s = c :: rest → isSpace c = false.
Proof.
  induction s as [|x s IH]; simpl; [done|].
  destruct (isSpace x) eqn:Hx; [done|]. by intros [= <- _].
Qed.

Lemma trimStart_fixed (s : jsstring) c rest :
  s = c :: rest → isSpace c = false → trimStart s = s.
Proof. intros -> Hc. simpl. by rewrite Hc. Qed.

Lemma trimEnd_split (s : jsstring) :
  ∃ ws, s = trimEnd s ++ ws ∧ forallb isSpace ws = true.
Proof.
  unfold trimEnd. destruct (trimStart_split (rev s)) as (ws & Hs & Hws).
  exists (rev ws). split.
  - rewrite <- rev_app_distr, <- Hs. by rewrite rev_involutive.
  - rewrite forallb_forall in *. intros x Hx. apply Hws. by apply in_rev.
Qed.

Lemma trimEnd_last (s init : jsstring) c :
  trimEnd s = init ++ [c] → isSpace c = false.
Proof.
  unfold trimEnd. intros H. apply (f_equal (@rev N)) in H.
  rewrite rev_involutive, rev_app_distr in H. simpl in H.
  by apply trimStart_head in H.
Qed.

(** What [trim] gives: the string without the white space and line
    terminators at its two ends. *)
Lemma trim_split (s : jsstring) :
  ∃ ws1 ws2,
    s = ws1 ++ trim s ++ ws2
    ∧ forallb isSpace ws1 = true ∧ forallb isSpace ws2 = true
    ∧ (∀ c rest, trim s = c :: rest → isSpace c = false)
    ∧ (∀ init c, trim s = init ++ [c] → isSpace c = false).
Proof.
  unfold trim.
  destruct (trimStart_split s) as (ws1 & Hs & Hws1).
  destruct (trimEnd_split (trimStart s)) as (ws2 & Ht & Hws2).
  exists ws1, ws2. repeat split; try done.
  - by rewrite <- Ht.
  - intros c rest Hhead.
    destruct (trimStart s) as [|x t] eqn:Hstart.
    { vm_compute in Hhead. discriminate. }
    rewrite Hhead in Ht. injection Ht as <- _.
    by apply (trimStart_head s _ t).
  - intros init c. apply trimEnd_last.
Qed.

Lemma trim_fixed (s : jsstring) :
  (∀ c rest, s = c :: rest → isSpace c = false) →
  (∀ init c, s = init ++ [c] → isSpace c = false) →
  trim s = s.
Proof.
  intros Hhead Hlast. unfold trim.
  assert (trimStart s = s) as ->.
  { destruct s as [|c rest]; [done|]. apply (trimStart_fixed _ c rest); eauto. }
  unfold trimEnd.
  destruct (rev s) as [|c rest] eqn:Hrev; simpl.
  { apply (f_equal (@rev N)) in Hrev. by rewrite rev_involutive in Hrev. }
  assert (s = rev rest ++ [c]) as Hs.
  { apply (f_equal (@rev N)) in Hrev. by rewrite rev_involutive in Hrev. }
  by rewrite (Hlast _ _ Hs).
Qed.

(** C2. The assembler returns the trimmed concatenation, over the part
    ids in order of first appearance, of the latest text recorded for each
    id among the [message.part.updated] events whose part is of type
    [text] and whose role is not [user]: the concatenation is the answer
    between a run of white space and line terminators before it and one
    behind it, and the answer neither begins nor ends with such a unit.
    An event whose part has role [user] contributes nothing wherever it
    stands; the three updates [a:Hel], [a:Hello], [b: world] of an
    assistant give [Hello world]; so they do with spaces, a tab, a line
    feed, a no-break space and a byte order mark around the texts, which
    are stripped at the two ends only, while a zero width space stays;
    and texts of white space alone give the empty answer. *)
Theorem extractAnswerFromEvents_spec :
  (∀ events,
      extractAnswerFromEvents events
      = trim (concat (map (latest_text (text_parts events))
                          (first_seen (map part_id (text_parts events))))))
  ∧ (∀ events,
        ∃ leading trailing,
          concat (map (latest_text (text_parts events))
                      (first_seen (map part_id (text_parts events))))
          = leading ++ extractAnswerFromEvents events ++ trailing
          ∧ Forall (λ c, isWhiteSpace c = true ∨ isLineTerminator c = true) leading
          ∧ Forall (λ c, isWhiteSpace c = true ∨ isLineTerminator c = true) trailing
          ∧ (∀ c rest,
                extractAnswerFromEvents events = c :: rest →
                isWhiteSpace c = false ∧ isLineTerminator c = false)
          ∧ (∀ init c,
                extractAnswerFromEvents events = init ++ [c] →
                isWhiteSpace c = false ∧ isLineTerminator c = false))
  ∧ (∀ event part,
        text_part event = Some part
        ↔ event_type event = str "message.part.updated"
          ∧ event_part event = Some part
          ∧ part_type part = str "text"
          ∧ part_role part ≠ Some (str "user"))
  ∧ (∀ before event part behind,
        event_part event = Some part →
        part_role part = Some (str "user") →
        extractAnswerFromEvents (before ++ event :: behind)
        = extractAnswerFromEvents (before ++ behind))
  ∧ extractAnswerFromEvents
      [ part_updated (str "s") (str "a") (Some (str "assistant")) (str "Hel");
        part_updated (str "s") (str "a") (Some (str "assistant")) (str "Hello");
        part_updated (str "s") (str "b") (Some (str "assistant")) (str " world") ]
    = str "Hello world"
  ∧ extractAnswerFromEvents
      [ part_updated (str "s") (str "a") (Some (str "assistant")) (str "  Hel");
        part_updated (str "s") (str "a") (Some (str "assistant"))
          (65279%N :: 9%N :: str " Hello");
        part_updated (str "s") (str "b") (Some (str "assistant"))
          (str " world " ++ [160%N; 13%N; 10%N]) ]
    = str "Hello world"
  ∧ extractAnswerFromEvents
      [ part_updated (str "s") (str "a") (Some (str "assistant"))
          (32%N :: 8203%N :: str "Hello ");
        part_updated (str "s") (str "b") (Some (str "assistant"))
          (str "world" ++ [8203%N; 8232%N]) ]
    = 8203%N :: str "Hello world" ++ [8203%N]
  ∧ extractAnswerFromEvents
      [ part_updated (str "s") (str "a") (Some (str "assistant")) (str "  ");
        part_updated (str "s") (str "b") (Some (str "assistant")) [9%N; 10%N] ]
    = [].
Proof.
  split; [|split; [|split; [|split; [|by repeat split]]]].
  - apply extractAnswerFromEvents_assembled.
  - intros events. rewrite extractAnswerFromEvents_assembled. unfold assembled.
    destruct (trim_split (concat (map (latest_text (text_parts events))
                                      (first_seen (map part_id (text_parts events))))))
      as (ws1 & ws2 & Hsplit & Hws1 & Hws2 & Hhead & Hlast).
    exists ws1, ws2. split; [done|].
    assert (∀ ws, forallb isSpace ws = true →
                  Forall (λ c, isWhiteSpace c = true ∨ isLineTerminator c = true) ws)
      as Hspaces.
    { intros ws Hws. apply Forall_forall. intros c Hc%list_elem_of_In.
      rewrite forallb_forall in Hws. by apply orb_true_iff, Hws. }
    split; [by apply Hspaces|]. split; [by apply Hspaces|]. split.
    + intros c rest Hanswer. by apply orb_false_iff, (Hhead c rest).
    + intros init c Hanswer. by apply orb_false_iff, (Hlast init c).
  - apply text_part_Some.
  - intros before event part behind Hpart Hrole.
    rewrite !extractAnswerFromEvents_assembled. unfold text_parts.
    rewrite !omap_app. simpl.
    by rewrite (text_part_user _ _ Hpart Hrole).
Qed.

Lemma extractAnswerFromEvents_spec_witness :
  extractAnswerFromEvents
    [ part_updated (str "s") (str "a") None (str "  Hi ");
      part_updated (str "s") (str "u") (Some (str "user")) (str "question");
      part_updated (str "s") (str "b") None (str "there" ++ [9%N; 10%N]) ]
  = extractAnswerFromEvents
      [ part_updated (str "s") (str "a") None (str "  Hi ");
        part_updated (str "s") (str "b") None (str "there" ++ [9%N; 10%N]) ]
  ∧ extractAnswerFromEvents
      [ part_updated (str "s") (str "a") None (str "  Hi ");
        part_updated (str "s") (str "b") None (str "there" ++ [9%N; 10%N]) ]
    = str "Hi there".
Proof.
  split; [|reflexivity].
  apply (proj1 (proj2 (proj2 (proj2 extractAnswerFromEvents_spec)))
           [ part_updated (str "s") (str "a") None (str "  Hi ") ]
           (part_updated (str "s") (str "u") (Some (str "user")) (str "question"))
           {| part_id := str "u"; part_type := str "text";
              part_role := Some (str "user");
              part_text := Some (str "question") |}
           [ part_updated (str "s") (str "b") None (str "there" ++ [9%N; 10%N]) ]).
  - reflexivity.
  - reflexivity.
Defined.

Lemma latest_text_replay parts id :
  latest_text (parts ++ parts) id = latest_text parts id.
Proof.
  unfold latest_text. rewrite list.filter_app, last_app.
  by destruct (last (filter (λ p, part_id p = id) parts)).
Qed.

Lemma assembled_replay parts : assembled (parts ++ parts) = assembled parts.
Proof.
  unfold assembled. rewrite map_app, first_seen_app_seen by done.
  do 2 f_equal. apply map_ext. intros id. apply latest_text_replay.
Qed.

Lemma latest_text_settled parts1 p parts2 :
  (∀ p', p' ∈ parts2 → part_id p' = part_id p → text_of p' = text_of p) →
  latest_text (parts1 ++ p :: parts2) (part_id p) = text_of p.
Proof.
  intros Hlater. unfold latest_text.
  rewrite list.filter_app, filter_cons_True, last_app_cons, last_cons by done.
  destruct (last (filter _ parts2)) as [p'|] eqn:Hlast; [|done].
  apply last_Some_elem_of, list_elem_of_filter in Hlast as [Hid Hin].
  by apply Hlater.
Qed.

Lemma assembled_again parts1 p parts2 :
  (∀ p', p' ∈ parts2 → part_id p' = part_id p → text_of p' = text_of p) →
  assembled ((parts1 ++ p :: parts2) ++ [p]) = assembled (parts1 ++ p :: parts2).
Proof.
  intros Hlater. unfold assembled.
  rewrite map_app, first_seen_app_seen.
  - do 2 f_equal. apply map_ext. intros id. rewrite latest_text_snoc.
    case_bool_decide as Hid; [|done].
    subst id. symmetry. by apply latest_text_settled.
  - intros x [->|[]%elem_of_nil]%elem_of_cons.
    rewrite map_app. apply elem_of_app. right. apply list_elem_of_here.
Qed.

(** C7, as amended. Delivering once more, at the end, an event that was
    already delivered leaves the answer unchanged provided no later update
    of the same part carried a different text; and replaying the whole
    list of events a second time leaves it unchanged. *)
Theorem extractAnswerFromEvents_redelivery :
  (∀ before event behind,
      (∀ later part part',
          later ∈ behind →
          text_part event = Some part →
          text_part later = Some part' →
          part_id part' = part_id part →
          text_of part' = text_of part) →
      extractAnswerFromEvents ((before ++ event :: behind) ++ [event])
      = extractAnswerFromEvents (before ++ event :: behind))
  ∧ (∀ events,
        extractAnswerFromEvents (events ++ events)
        = extractAnswerFromEvents events).
Proof.
  split.
  - intros before event behind Hlater.
    rewrite !extractAnswerFromEvents_assembled. unfold text_parts.
    rewrite !omap_app. simpl.
    destruct (text_part event) as [part|] eqn:Hpart; simpl.
    + apply assembled_again. intros p' Hin Hid.
      apply list_elem_of_omap in Hin as (later & Hin & Hp').
      by apply (Hlater later part p').
    + by rewrite app_nil_r.
  - intros events. rewrite !extractAnswerFromEvents_assembled.
    unfold text_parts. rewrite omap_app. apply assembled_replay.
Qed.

Lemma extractAnswerFromEvents_redelivery_witness :
  extractAnswerFromEvents
    ([ part_updated (str "s") (str "a") None (str "Hel");
       part_updated (str "s") (str "a") None (str "Hello");
       part_updated (str "s") (str "b") None (str " world") ]
     ++ [ part_updated (str "s") (str "a") None (str "Hello") ])
  = extractAnswerFromEvents
      [ part_updated (str "s") (str "a") None (str "Hel");
        part_updated (str "s") (str "a") None (str "Hello");
        part_updated (str "s") (str "b") None (str " world") ].
Proof.
  apply (proj1 extractAnswerFromEvents_redelivery
           [ part_updated (str "s") (str "a") None (str "Hel") ]
           (part_updated (str "s") (str "a") None (str "Hello"))
           [ part_updated (str "s") (str "b") None (str " world") ]).
  intros later part part' Hin Hpart Hpart' Hid.
  apply list_elem_of_singleton in Hin. subst later.
  vm_compute in Hpart, Hpart'.
  injection Hpart as <-. injection Hpart' as <-.
  vm_compute in Hid. discriminate Hid.
Defined.

(** C7, as stated, fails: a repeated delivery of an update that a later
    update of the same part has superseded brings the old text back. *)
Lemma extractAnswerFromEvents_redelivery_counterexample :
  let first := part_updated (str "s") (str "a") None (str "Hel") in
  let events := [ first; part_updated (str "s") (str "a") None (str "Hello") ] in
  first ∈ events
  ∧ extractAnswerFromEvents events = str "Hello"
  ∧ extractAnswerFromEvents (events ++ [first]) = str "Hel"
  ∧ extractAnswerFromEvents (events ++ [first]) ≠ extractAnswerFromEvents events.
Proof.
  simpl. split; [apply list_elem_of_here|].
  split; [reflexivity|]. split; [reflexivity|].
  vm_compute. discriminate.
Qed.

(** ** The collecting loop of [query] *)

Lemma pump_snoc events event :
  pump (events ++ [event]) = pump_step (pump events) event.
Proof. unfold pump. apply foldl_snoc. Qed.

Lemma pump_step_sessionError st event :
  sessionError (pump_step st event)
  = if strict_eq (event_type event) (str "session.error")
    then Some (error_message event) else sessionError st.
Proof.
  unfold pump_step, strict_eq.
  case_bool_decide as Hmu.
  - rewrite Hmu. simpl.
    destruct (props_info (event_properties event)) as [info|]; [|done].
    destruct (info_role info), (info_tokens info); try done.
    by case_bool_decide.
  - by case_bool_decide.
Qed.

Lemma foldl_pump_step_no_error st events :
  Forall (λ x, event_type x ≠ str "session.error") events →
  sessionError (foldl pump_step st events) = sessionError st.
Proof.
  intros Hevents. revert st.
  induction Hevents as [|x events Hx _ IH]; intros st; simpl; [done|].
  rewrite IH, pump_step_sessionError. unfold strict_eq.
  by rewrite bool_decide_eq_false_2.
Qed.

Lemma pump_last_error before event behind :
  event_type event = str "session.error" →
  Forall (λ x, event_type x ≠ str "session.error") behind →
  sessionError (pump (before ++ event :: behind)) = Some (error_message event).
Proof.
  intros Htype Hbehind. unfold pump.
  rewrite foldl_app. simpl.
  rewrite foldl_pump_step_no_error, pump_step_sessionError by done.
  unfold strict_eq. by rewrite bool_decide_eq_true_2.
Qed.

Lemma error_message_chain event :
  error_message event
  = match structured_message event with
    | Some (c :: message) => c :: message
    | _ => match name_of_error event with
           | Some (c :: name) => c :: name
           | _ => str "Unknown error occurred"
           end
    end.
Proof.
  unfold error_message, structured_message, name_of_error.
  destruct (props_error (event_properties event)) as [error|]; [|done]. simpl.
  destruct (error_data error) as [data|]; simpl.
  - destruct (data_message data) as [[|c m]|]; simpl; try done;
      by destruct (error_name error) as [[|c' n]|].
  - by destruct (error_name error) as [[|c' n]|].
Qed.

Lemma error_message_truthy event : ∃ c m, error_message event = c :: m.
Proof.
  rewrite error_message_chain.
  destruct (structured_message event) as [[|c m]|]; eauto;
    destruct (name_of_error event) as [[|c' n]|]; eauto;
    by eexists _, _.
Qed.

Lemma query_outcome a input source env sid :
  client a ≠ None →
  session_for a env = Some sid →
  outcome (query a input source env)
  = settle (pump (items (sessionEvents sid (event_stream env))))
           (ending (sessionEvents sid (event_stream env))).
Proof.
  intros Hclient Hsid. unfold query.
  destruct (client a); [|done]. rewrite Hsid.
  by destruct (parse_model _).
Qed.

(** C3, as amended. When [session.error] events occur among the events
    that [query] consumes and the consumed sequence ends without a failure
    of the stream itself, [query] throws the message captured from the
    last of them: the structured message, else the name of the error, else
    the unknown-error text. Text events that follow do not change that. *)
Theorem query_session_error a input source env sid before event behind :
  client a ≠ None →
  session_for a env = Some sid →
  sessionEvents sid (event_stream env)
  = {| items := before ++ event :: behind; ending := Done |} →
  event_type event = str "session.error" →
  Forall (λ x, event_type x ≠ str "session.error") behind →
  outcome (query a input source env) = Threw (error_message event)
  ∧ error_message event
    = match structured_message event with
      | Some (c :: message) => c :: message
      | _ => match name_of_error event with
             | Some (c :: name) => c :: name
             | _ => str "Unknown error occurred"
             end
      end.
Proof.
  intros Hclient Hsid Hstream Htype Hbehind.
  split; [|apply error_message_chain].
  rewrite (query_outcome _ _ _ _ sid), Hstream by done. simpl.
  rewrite pump_last_error by done.
  by destruct (error_message_truthy event) as (c & m & ->).
Qed.

Lemma query_session_error_witness :
  outcome
    (query (started (Some (str "s1")) (str "openai/gpt-5")) (str "hi") None
       {| session_create := None;
          event_stream :=
            {| items := [ session_error (str "s1") (str "rate limited");
                          part_updated (str "s1") (str "a") None (str "partial");
                          session_idle (str "s1") ];
               ending := Hangs |} |})
  = Threw (str "rate limited").
Proof.
  apply (query_session_error
           (started (Some (str "s1")) (str "openai/gpt-5")) (str "hi") None
           {| session_create := None;
              event_stream :=
                {| items := [ session_error (str "s1") (str "rate limited");
                              part_updated (str "s1") (str "a") None (str "partial");
                              session_idle (str "s1") ];
                   ending := Hangs |} |}
           (str "s1") []
           (session_error (str "s1") (str "rate limited"))
           [ part_updated (str "s1") (str "a") None (str "partial");
             session_idle (str "s1") ]).
  - discriminate.
  - reflexivity.
  - reflexivity.
  - reflexivity.
  - repeat constructor; discriminate.
Defined.

(** C3, as stated, fails: of two [session.error] events the message of
    the second is thrown, not that of the first. *)
Lemma query_session_error_counterexample :
  let first := session_error (str "s1") (str "rate limited") in
  let env :=
    {| session_create := None;
       event_stream :=
         {| items := [ first; session_error (str "s1") (str "overloaded");
                       session_idle (str "s1") ];
            ending := Hangs |} |} in
  let run := query (started (Some (str "s1")) (str "openai/gpt-5")) (str "hi") None env in
  first ∈ items (sessionEvents (str "s1") (event_stream env))
  ∧ event_type first = str "session.error"
  ∧ error_message first = str "rate limited"
  ∧ outcome run = Threw (str "overloaded")
  ∧ outcome run ≠ Threw (error_message first).
Proof.
  cbv zeta. split; [apply list_elem_of_here|].
  do 3 (split; [reflexivity|]).
  vm_compute. discriminate.
Qed.

(** A stream that fails with an empty message after a [session.error]
    event clears the captured error: [query] then returns. *)
Example query_error_then_empty_failure :
  outcome
    (query (started (Some (str "s1")) (str "openai/gpt-5")) (str "hi") None
       {| session_create := None;
          event_stream :=
            {| items := [ session_error (str "s1") (str "rate limited") ];
               ending := Throws [] |} |})
  = Returned {| response := str "(No response received)"; tokenUsage := None |}.
Proof. reflexivity. Qed.

(** ** Token usage *)

Lemma pump_step_usage st event info tokens :
  event_type event = str "message.updated" →
  props_info (event_properties event) = Some info →
  info_role info = Some (str "assistant") →
  info_tokens info = Some tokens →
  usage (pump_step st event) = Some (usage_of info tokens).
Proof.
  intros Htype Hinfo Hrole Htokens. unfold pump_step, strict_eq.
  rewrite bool_decide_eq_true_2, Hinfo, Hrole, Htokens by done.
  by rewrite bool_decide_eq_true_2.
Qed.

Lemma pump_step_usage_other st event :
  event_type event ≠ str "message.updated" →
  usage (pump_step st event) = usage st.
Proof.
  intros Htype. unfold pump_step, strict_eq.
  rewrite bool_decide_eq_false_2 by done. by case_bool_decide.
Qed.

(** The usage returned is that of the last assistant message with
    token counts. *)
Lemma pump_last_usage before event behind info tokens :
  event_type event = str "message.updated" →
  props_info (event_properties event) = Some info →
  info_role info = Some (str "assistant") →
  info_tokens info = Some tokens →
  Forall (λ x, event_type x ≠ str "message.updated") behind →
  usage (pump (before ++ event :: behind)) = Some (usage_of info tokens).
Proof.
  intros Htype Hinfo Hrole Htokens Hbehind. unfold pump.
  rewrite foldl_app. simpl.
  generalize (pump_step_usage (foldl pump_step (mkPump None None []) before)
                event info tokens Htype Hinfo Hrole Htokens).
  generalize (pump_step (foldl pump_step (mkPump None None []) before) event).
  induction Hbehind as [|x behind Hx _ IH]; intros st Hst; simpl; [done|].
  apply IH. by rewrite pump_step_usage_other.
Qed.

(** The total is the sum of the two counts whenever the counts arrive
    under the names [input] and [output] and no truthy total is given. *)
Lemma usage_of_total_sum info tokens :
  truthy_onum (tokens_total tokens) = false →
  tokens_prompt tokens = None →
  tokens_completion tokens = None →
  totalTokens (usage_of info tokens)
  = (inputTokens (usage_of info tokens) + outputTokens (usage_of info tokens))%Z.
Proof.
  intros Htotal Hprompt Hcompletion. unfold usage_of, onum_or. simpl.
  rewrite Hprompt, Hcompletion.
  assert (num_or (tokens_total tokens)
            (num_or (tokens_input tokens) 0 + num_or (tokens_output tokens) 0)
          = (num_or (tokens_input tokens) 0 + num_or (tokens_output tokens) 0)%Z)
    as ->.
  { destruct (tokens_total tokens) as [n|]; simpl in *; [|done].
    by destruct (n =? 0)%Z. }
  f_equal.
  - destruct (tokens_input tokens) as [n|]; simpl; [|done].
    by destruct (n =? 0)%Z eqn:Hn; simpl; rewrite ?Hn.
  - destruct (tokens_output tokens) as [n|]; simpl; [|done].
    by destruct (n =? 0)%Z eqn:Hn; simpl; rewrite ?Hn.
Qed.

(** A truthy explicit total is taken as it is. *)
Lemma usage_of_total_explicit info tokens n :
  tokens_total tokens = Some n → n ≠ 0%Z →
  totalTokens (usage_of info tokens) = n.
Proof.
  intros Htotal Hn. unfold usage_of. simpl. rewrite Htotal. simpl.
  by destruct (Z.eqb_spec n 0).
Qed.

(** The two runs the specification gives as examples. *)
Example query_usage_explicit_total :
  outcome
    (query (started (Some (str "s1")) (str "openai/gpt-5")) (str "hi") None
       {| session_create := None;
          event_stream :=
            {| items :=
                 [ message_updated (str "s1")
                     {| tokens_input := Some 10%Z; tokens_output := Some 5%Z;
                        tokens_prompt := None; tokens_completion := None;
                        tokens_total := None |};
                   message_updated (str "s1")
                     {| tokens_input := Some 10%Z; tokens_output := Some 5%Z;
                        tokens_prompt := None; tokens_completion := None;
                        tokens_total := Some 16%Z |};
                   session_idle (str "s1") ];
               ending := Hangs |} |})
  = Returned
      {| response := str "(No response received)";
         tokenUsage := Some {| inputTokens := 10; outputTokens := 5;
                               totalTokens := 16; cost := None |} |}.
Proof. reflexivity. Qed.

Example query_usage_derived_total :
  outcome
    (query (started (Some (str "s1")) (str "openai/gpt-5")) (str "hi") None
       {| session_create := None;
          event_stream :=
            {| items :=
                 [ message_updated (str "s1")
                     {| tokens_input := Some 3%Z; tokens_output := Some 2%Z;
                        tokens_prompt := None; tokens_completion := None;
                        tokens_total := None |};
                   session_idle (str "s1") ];
               ending := Hangs |} |})
  = Returned
      {| response := str "(No response received)";
         tokenUsage := Some {| inputTokens := 3; outputTokens := 2;
                               totalTokens := 5; cost := None |} |}.
Proof. reflexivity. Qed.

(** C4, where the code departs from it. For an assistant message whose
    counts arrive as [prompt] and [completion], with no total, [query]
    reports 7 input and 3 output tokens and a total of 0, not their sum:
    the two counts fall back on [prompt] and [completion], the derived
    total does not. *)
Theorem query_usage_total_misses_fallback :
  outcome
    (query (started (Some (str "s1")) (str "openai/gpt-5")) (str "hi") None
       {| session_create := None;
          event_stream :=
            {| items :=
                 [ message_updated (str "s1")
                     {| tokens_input := None; tokens_output := None;
                        tokens_prompt := Some 7%Z; tokens_completion := Some 3%Z;
                        tokens_total := None |};
                   session_idle (str "s1") ];
               ending := Hangs |} |})
  = Returned
      {| response := str "(No response received)";
         tokenUsage := Some {| inputTokens := 7; outputTokens := 3;
                               totalTokens := 0; cost := None |} |}.
Proof. reflexivity. Qed.

(** ** The model selector *)

Lemma split_on_absent sep (s : jsstring) : sep ∉ s → split_on sep s = [s].
Proof.
  induction s as [|c s IH]; simpl; [done|].
  intros Hnot. apply not_elem_of_cons in Hnot as [Hne Hnot].
  destruct (N.eqb_spec c sep) as [->|_]; [done|].
  by rewrite IH.
Qed.

Lemma parse_model_no_slash (model : jsstring) :
  47%N ∉ model → parse_model model = (model, None).
Proof. intros Hnot. unfold parse_model. by rewrite split_on_absent. Qed.

(** C5, as amended. [openai/gpt-5] is split into the provider [openai]
    and the model [gpt-5]. A model string without a slash is not refused:
    it gives the whole string as provider and an undefined model, and
    [query] submits the prompt with that selector and goes on to collect
    the events as for any other model. *)
Theorem parse_model_selector :
  parse_model (str "openai/gpt-5") = (str "openai", Some (str "gpt-5"))
  ∧ ∀ model, 47%N ∉ model →
      parse_model model = (model, None)
      ∧ ∀ a input source env sid,
          client a ≠ None →
          _currentModel a = model →
          session_for a env = Some sid →
          (∃ text, SessionPrompt {| path_id := sid; providerID := model;
                                    modelID := None; prompt_text := text |}
                   ∈ calls (query a input source env))
          ∧ outcome (query a input source env)
            = settle (pump (items (sessionEvents sid (event_stream env))))
                     (ending (sessionEvents sid (event_stream env))).
Proof.
  split; [reflexivity|]. intros model Hnot.
  split; [by apply parse_model_no_slash|].
  intros a input source env sid Hclient Hmodel Hsid.
  split; [|by apply query_outcome].
  unfold query. destruct (client a); [|done].
  rewrite Hsid. simpl. rewrite Hmodel, parse_model_no_slash by done.
  eexists. simpl. apply elem_of_app. right.
  apply list_elem_of_further, list_elem_of_here.
Qed.

Lemma parse_model_selector_witness :
  parse_model (str "gpt-5") = (str "gpt-5", None).
Proof.
  apply (proj2 parse_model_selector (str "gpt-5")).
  vm_compute. intros H. repeat (inversion H as [|? ? ? H']; clear H; rename H' into H; subst).
Defined.

(** C5, as stated, fails: with the model [gpt-5] nothing is refused, the
    prompt goes out with an undefined model and [query] returns. *)
Lemma parse_model_selector_counterexample :
  let run :=
    query (started (Some (str "s1")) (str "gpt-5")) (str "hi") None
      {| session_create := None;
         event_stream :=
           {| items := [ part_updated (str "s1") (str "a") None (str "ok");
                         session_idle (str "s1") ];
              ending := Hangs |} |} in
  (47%N ∉ str "gpt-5")
  ∧ parse_model (str "gpt-5") = (str "gpt-5", None)
  ∧ calls run
    = [ EventSubscribe;
        SessionPrompt {| path_id := str "s1"; providerID := str "gpt-5";
                         modelID := None; prompt_text := str "hi" |} ]
  ∧ outcome run = Returned {| response := str "ok"; tokenUsage := None |}.
Proof.
  cbv zeta. split; [|repeat split; reflexivity].
  rewrite <- (bool_decide_eq_false (47%N ∈ str "gpt-5")). reflexivity.
Qed.

(** ** The session cache *)

Lemma query_cached a input source env id :
  client a ≠ None →
  currentSessionId a = Some id → id ≠ [] →
  currentSessionId (after (query a input source env)) = Some id
  ∧ ∃ req, calls (query a input source env) = [EventSubscribe; SessionPrompt req]
           ∧ path_id req = id.
Proof.
  intros Hclient Hsid Hid. unfold query, session_for.
  destruct (client a); [|done]. rewrite Hsid.
  destruct id as [|c id]; [done|]. simpl.
  destruct (parse_model _). simpl. eauto.
Qed.

Lemma exec_keeps_session a op id :
  id ≠ [] → keeps_session op →
  client a ≠ None → currentSessionId a = Some id →
  client (exec a op) ≠ None ∧ currentSessionId (exec a op) = Some id.
Proof.
  intros Hid Hop Hclient Hsid.
  destruct op as [m|mode|s|p|input source env|spawned| |spawned];
    simpl in Hop; try done; cbn [exec].
  - split; [|by apply query_cached].
    unfold query, session_for. destruct (client a) eqn:Hc; [|done].
    rewrite Hsid. destruct id; [done|]. simpl.
    by destruct (parse_model _).
  - by destruct spawned as [message|[process url]].
Qed.

Lemma exec_all_keeps_session a ops id :
  id ≠ [] → Forall keeps_session ops →
  client a ≠ None → currentSessionId a = Some id →
  client (exec_all a ops) ≠ None ∧ currentSessionId (exec_all a ops) = Some id.
Proof.
  intros Hid Hops. revert a.
  induction Hops as [|op ops Hop _ IH]; intros a Hclient Hsid; [done|].
  destruct (exec_keeps_session a op id Hid Hop Hclient Hsid) as [Hc Hs].
  unfold exec_all in *. simpl. by apply IH.
Qed.

(** C6, as amended. With no session cached, a creation that returns no
    data makes [query] throw the session-creation error and leaves the
    cache empty, so that the next [query] asks for a session again. A
    creation that returns a non-empty id caches it, and every later
    [query] works on that id without creating a session, until
    [setSessionId], [stop] or [restart] is called. *)
Theorem query_session_cache a input source env :
  client a ≠ None →
  currentSessionId a = None →
  (session_create env = None →
     outcome (query a input source env) = Threw (str "Failed to create session")
     ∧ after (query a input source env) = a
     ∧ currentSessionId (after (query a input source env)) = None
     ∧ ∀ input' source' env',
         SessionCreate ∈ calls (query (after (query a input source env))
                                  input' source' env'))
  ∧ (∀ id, session_create env = Some id → id ≠ [] →
       SessionCreate ∈ calls (query a input source env)
       ∧ currentSessionId (after (query a input source env)) = Some id
       ∧ ∀ ops, Forall keeps_session ops →
           ∀ input' source' env',
             let a' := exec_all (after (query a input source env)) ops in
             currentSessionId a' = Some id
             ∧ ∃ req, calls (query a' input' source' env')
                      = [EventSubscribe; SessionPrompt req]
                      ∧ path_id req = id).
Proof.
  intros Hclient Hsid. split.
  - intros Hcreate.
    assert (query a input source env
            = mkRun (Threw (str "Failed to create session")) a [SessionCreate])
      as ->.
    { unfold query, session_for. destruct (client a); [|done].
      by rewrite Hsid, Hcreate. }
    simpl. repeat split; try done.
    intros input' source' env'. unfold query, session_for.
    destruct (client a); [|done]. rewrite Hsid. simpl.
    destruct (session_create env') as [id'|]; [|apply list_elem_of_here].
    destruct (parse_model _). simpl. apply list_elem_of_here.
  - intros id Hcreate Hid.
    assert (client (after (query a input source env)) ≠ None
            ∧ currentSessionId (after (query a input source env)) = Some id
            ∧ SessionCreate ∈ calls (query a input source env))
      as (Hclient' & Hsid' & Hcalls).
    { unfold query, session_for. destruct (client a) eqn:Hc; [|done].
      rewrite Hsid, Hcreate. simpl. destruct (parse_model _). simpl.
      repeat split; try done. apply list_elem_of_here. }
    repeat split; try done.
    + by apply exec_all_keeps_session.
    + destruct (exec_all_keeps_session _ ops id Hid H Hclient' Hsid')
        as [Hc Hs].
      by apply query_cached.
Qed.

Lemma query_session_cache_witness :
  currentSessionId
    (after (query (started None (str "openai/gpt-5")) (str "hi") None
              {| session_create := Some (str "ses_1");
                 event_stream := {| items := [session_idle (str "ses_1")];
                                    ending := Hangs |} |}))
  = Some (str "ses_1").
Proof.
  apply (proj2 (query_session_cache
                  (started None (str "openai/gpt-5")) (str "hi") None
                  {| session_create := Some (str "ses_1");
                     event_stream := {| items := [session_idle (str "ses_1")];
                                        ending := Hangs |} |}
                  ltac:(discriminate) eq_refl)
           (str "ses_1") eq_refl ltac:(discriminate)).
Defined.

(** C6, as stated, fails for an empty id: the creation succeeds and the
    id is stored, but being falsy it counts as no session, and the next
    [query] creates another one. *)
Lemma query_session_cache_counterexample :
  let first :=
    query (started None (str "openai/gpt-5")) (str "hi") None
      {| session_create := Some [];
         event_stream := {| items := [session_idle []]; ending := Hangs |} |} in
  let second :=
    query (after first) (str "again") None
      {| session_create := Some (str "ses_2");
         event_stream := {| items := [session_idle (str "ses_2")];
                            ending := Hangs |} |} in
  outcome first
  = Returned {| response := str "(No response received)"; tokenUsage := None |}
  ∧ currentSessionId (after first) = Some []
  ∧ calls second
    = [ SessionCreate; EventSubscribe;
        SessionPrompt {| path_id := str "ses_2"; providerID := str "openai";
                         modelID := Some (str "gpt-5");
                         prompt_text := str "again" |} ].
Proof. cbv zeta. repeat split; reflexivity. Qed.

(** ** Parsing of the input line *)

Lemma lazy_group_unclosed seen (s : jsstring) :
  93%N ∉ s → lazy_group seen s = None.
Proof.
  revert seen. induction s as [|c s IH]; intros seen Hnot; simpl; [done|].
  apply not_elem_of_cons in Hnot as [Hne Hnot].
  destruct (N.eqb_spec c 93) as [->|_]; [done|].
  destruct (isLineTerminator c); [done|]. by apply IH.
Qed.

Lemma sourceMatch_no_prefix (input : jsstring) :
  (¬ ∃ inside behind, input = 91%N :: inside ++ 93%N :: behind) →
  sourceMatch input = None.
Proof.
  intros Hno. unfold sourceMatch.
  destruct input as [|c rest]; [done|].
  destruct (N.eqb_spec c 91) as [->|_]; [|done].
  apply lazy_group_unclosed. intros Hin.
  apply list_elem_of_split in Hin as (inside & behind & ->).
  apply Hno. eauto.
Qed.

Lemma spaces_then_rest_trimmed (s : jsstring) :
  forallb (λ c, negb (isLineTerminator c)) (trimStart s) = true →
  spaces_then_rest s = Some (trimStart s).
Proof.
  induction s as [|c s IH]; simpl; [done|].
  destruct (isSpace c).
  - intros Hrest. by rewrite IH.
  - intros Hrest. unfold dot_star_end. by rewrite Hrest.
Qed.

Lemma lazy_group_closed seen (inside behind : jsstring) :
  93%N ∉ inside →
  forallb (λ c, negb (isLineTerminator c)) inside = true →
  forallb (λ c, negb (isLineTerminator c)) (trimStart behind) = true →
  lazy_group seen (inside ++ 93%N :: behind)
  = Some (seen ++ inside, trimStart behind).
Proof.
  revert seen. induction inside as [|c inside IH];
    intros seen Hnot Hinside Hbehind; simpl.
  - by rewrite spaces_then_rest_trimmed, app_nil_r.
  - apply not_elem_of_cons in Hnot as [Hne Hnot].
    simpl in Hinside. apply andb_true_iff in Hinside as [Hc Hinside].
    destruct (N.eqb_spec c 93) as [->|_]; [done|].
    apply negb_true_iff in Hc. rewrite Hc.
    by rewrite IH, <- app_assoc.
Qed.

Lemma trim_trimStart (s : jsstring) : trim (trimStart s) = trim s.
Proof.
  unfold trim. f_equal.
  induction s as [|c s IH]; simpl; [done|].
  destruct (isSpace c) eqn:Hc; [done|]. simpl. by rewrite Hc.
Qed.

(** C8. [parseInput] takes a bracketed prefix as the source and what
    follows as the query, both trimmed: so for the example line, and for
    every line made of a bracketed source and a query free of line
    terminators. An input that does not begin with a bracketed prefix,
    like [plain question], gives no source and the trimmed input as
    query. *)
Theorem parseInput_spec :
  parseInput (str "[./repo] what does this do")
  = {| parsed_source := Some (str "./repo");
       parsed_query := str "what does this do" |}
  ∧ parseInput (str "plain question")
    = {| parsed_source := None; parsed_query := str "plain question" |}
  ∧ (∀ input : jsstring,
        (¬ ∃ inside behind, input = 91%N :: inside ++ 93%N :: behind) →
        parseInput input
        = {| parsed_source := None; parsed_query := trim input |})
  ∧ (∀ inside behind : jsstring,
        93%N ∉ inside →
        forallb (λ c, negb (isLineTerminator c)) inside = true →
        forallb (λ c, negb (isLineTerminator c)) (trimStart behind) = true →
        parseInput (91%N :: inside ++ 93%N :: behind)
        = {| parsed_source := Some (trim inside);
             parsed_query := trim behind |}).
Proof.
  split; [reflexivity|]. split; [reflexivity|]. split.
  - intros input Hno. unfold parseInput.
    by rewrite sourceMatch_no_prefix.
  - intros inside behind Hnot Hinside Hbehind. unfold parseInput. simpl.
    by rewrite lazy_group_closed, trim_trimStart.
Qed.

Lemma parseInput_spec_witness :
  parseInput (str "  how do I [install] this? ")
  = {| parsed_source := None;
       parsed_query := str "how do I [install] this?" |}.
Proof.
  apply (proj1 (proj2 (proj2 parseInput_spec))
           (str "  how do I [install] this? ")).
  intros (inside & behind & H). discriminate H.
Defined.

(** ** Providers and their API keys *)

Lemma allowed_paid_has_entry (providerId : jsstring) :
  providerId ∈ allowedProviders →
  requiresApiKey providerId = true →
  ∃ c envVar, PROVIDER_API_KEYS !! providerId = Some (c :: envVar).
Proof.
  unfold allowedProviders. intros Hin Hpaid.
  repeat (apply elem_of_cons in Hin as [->|Hin];
          [first [discriminate Hpaid | by eexists _, _]|]).
  by apply elem_of_nil in Hin.
Qed.

(** Every value the table can give, with the key it is read by. *)
Lemma api_key_values (providerId : jsstring) (v : Value) :
  getApiKeyEnvVar providerId = Some v →
  (providerId, v)
  ∈ [ (str "google", VString (str "GOOGLE_API_KEY"));
      (str "openai", VString (str "OPENAI_API_KEY"));
      (str "anthropic", VString (str "ANTHROPIC_API_KEY"));
      (str "deepseek", VString (str "DEEPSEEK_API_KEY"));
      (str "xai", VString (str "XAI_API_KEY"));
      (str "mistral", VString (str "MISTRAL_API_KEY"));
      (str "constructor", VFunction (str "Object"));
      (str "hasOwnProperty", VFunction (str "hasOwnProperty"));
      (str "isPrototypeOf", VFunction (str "isPrototypeOf"));
      (str "propertyIsEnumerable", VFunction (str "propertyIsEnumerable"));
      (str "toLocaleString", VFunction (str "toLocaleString"));
      (str "toString", VFunction (str "toString"));
      (str "valueOf", VFunction (str "valueOf"));
      (str "__defineGetter__", VFunction (str "__defineGetter__"));
      (str "__defineSetter__", VFunction (str "__defineSetter__"));
      (str "__lookupGetter__", VFunction (str "__lookupGetter__"));
      (str "__lookupSetter__", VFunction (str "__lookupSetter__"));
      (str "__proto__", VPrototype) ].
Proof.
  unfold getApiKeyEnvVar, get_property.
  destruct (PROVIDER_API_KEYS !! providerId) as [name|] eqn:Hown.
  - intros [= <-]. apply elem_of_list_to_map_2 in Hown.
    repeat (apply elem_of_cons in Hown as [Hown|Hown]);
      [..|by apply elem_of_nil in Hown];
      apply pair_equal_spec in Hown as [-> ->];
      repeat first [apply list_elem_of_here | apply list_elem_of_further].
  - intros Hinherited. apply elem_of_list_to_map_2 in Hinherited.
    by do 6 apply list_elem_of_further.
Qed.

Lemma api_key_value_truthy (providerId : jsstring) (v : Value) :
  getApiKeyEnvVar providerId = Some v → truthy_value v = true.
Proof.
  intros Hv%api_key_values.
  repeat (apply elem_of_cons in Hv as [Hv|Hv]);
    [..|by apply elem_of_nil in Hv];
    by apply pair_equal_spec in Hv as [-> ->].
Qed.

(** No two keys of the table, inherited ones included, lead to the same
    variable of the environment. *)
Lemma api_key_env_injective (p q : jsstring) (v v' : Value) :
  getApiKeyEnvVar p = Some v → getApiKeyEnvVar q = Some v' →
  to_property_key v = to_property_key v' → p = q.
Proof.
  intros Hp%api_key_values Hq%api_key_values Hkey.
  repeat (apply elem_of_cons in Hp as [Hp|Hp]);
    [..|by apply elem_of_nil in Hp];
    (repeat (apply elem_of_cons in Hq as [Hq|Hq]);
     [..|by apply elem_of_nil in Hq]);
    apply pair_equal_spec in Hp as [-> ->];
    apply pair_equal_spec in Hq as [-> ->];
    first [reflexivity | (vm_compute in Hkey; discriminate Hkey)].
Qed.

Lemma inherited_not_own (providerId : jsstring) (v : Value) :
  Object_prototype !! providerId = Some v →
  PROVIDER_API_KEYS !! providerId = None
  ∧ requiresApiKey providerId = true
  ∧ truthy_value v = true
  ∧ (∅ : gmap jsstring jsstring) !! to_property_key v = None.
Proof.
  intros Hv%elem_of_list_to_map_2.
  repeat (apply elem_of_cons in Hv as [Hv|Hv]);
    [..|by apply elem_of_nil in Hv];
    by apply pair_equal_spec in Hv as [-> ->].
Qed.

(** C9, as amended. A provider id that is neither a key of
    [PROVIDER_API_KEYS] nor the name of a property that the table
    inherits passes the key check whatever the environment, also when it
    is not a free provider, as [alibaba] is not. For the name of an
    inherited property, as [constructor], the table gives the inherited
    value: the id requires a key and passes the check only if a variable
    named by the text of that value is set, so never with an empty
    environment. Among the providers offered for selection neither
    occurs: each of those that requires a key has an entry, and passes
    the check exactly when its variable is set to a non-empty value. *)
Theorem hasApiKey_unlisted :
  (∀ (env : gmap jsstring jsstring) (providerId : jsstring),
      PROVIDER_API_KEYS !! providerId = None →
      Object_prototype !! providerId = None →
      getApiKeyEnvVar providerId = None ∧ hasApiKey env providerId = true)
  ∧ (PROVIDER_API_KEYS !! str "alibaba" = None
     ∧ requiresApiKey (str "alibaba") = true
     ∧ hasApiKey ∅ (str "alibaba") = true)
  ∧ (∀ (env : gmap jsstring jsstring) (providerId : jsstring) (v : Value),
        Object_prototype !! providerId = Some v →
        PROVIDER_API_KEYS !! providerId = None
        ∧ requiresApiKey providerId = true
        ∧ getApiKeyEnvVar providerId = Some v
        ∧ hasApiKey env providerId = truthy_ostr (env !! to_property_key v)
        ∧ hasApiKey ∅ providerId = false)
  ∧ (PROVIDER_API_KEYS !! str "constructor" = None
     ∧ getApiKeyEnvVar (str "constructor") = Some (VFunction (str "Object"))
     ∧ hasApiKey ∅ (str "constructor") = false
     ∧ hasApiKey ∅ (str "__proto__") = false)
  ∧ (∀ (env : gmap jsstring jsstring) (providerId : jsstring),
        providerId ∈ allowedProviders →
        requiresApiKey providerId = true →
        ∃ envVar, getApiKeyEnvVar providerId = Some (VString envVar)
                  ∧ hasApiKey env providerId = truthy_ostr (env !! envVar)
                  ∧ hasApiKey ∅ providerId = false).
Proof.
  split; [|split; [by repeat split|split; [|split; [by repeat split|]]]].
  - intros env providerId Hown Hinherited.
    unfold hasApiKey, getApiKeyEnvVar, get_property.
    by rewrite Hown, Hinherited.
  - intros env providerId v Hv.
    destruct (inherited_not_own _ _ Hv) as (Hown & Hpaid & Htruthy & Hempty).
    unfold hasApiKey, getApiKeyEnvVar, get_property.
    by rewrite Hown, Hv, Htruthy, Hempty.
  - intros env providerId Hin Hpaid.
    destruct (allowed_paid_has_entry _ Hin Hpaid) as (c & envVar & Hentry).
    exists (c :: envVar). unfold getApiKeyEnvVar, hasApiKey, get_property.
    rewrite Hentry. by rewrite lookup_empty.
Qed.

Lemma hasApiKey_unlisted_witness :
  getApiKeyEnvVar (str "llama") = None ∧ hasApiKey ∅ (str "llama") = true.
Proof.
  apply (proj1 hasApiKey_unlisted ∅ (str "llama")); reflexivity.
Defined.

(** C9, as stated, fails in both parts: [constructor] has no entry in
    the table and does not pass the key check, and no provider offered
    for selection both requires a key and passes the check while no
    variable is set. *)
Lemma hasApiKey_unlisted_counterexample :
  ¬ (∀ (env : gmap jsstring jsstring) (providerId : jsstring),
        PROVIDER_API_KEYS !! providerId = None → hasApiKey env providerId = true)
  ∧ ¬ ∃ providerId,
        providerId ∈ allowedProviders
        ∧ requiresApiKey providerId = true
        ∧ hasApiKey ∅ providerId = true.
Proof.
  split.
  - intros Hall. specialize (Hall ∅ (str "constructor") eq_refl).
    vm_compute in Hall. discriminate Hall.
  - intros (providerId & Hin & Hpaid & Hkey).
    destruct (allowed_paid_has_entry _ Hin Hpaid) as (c & envVar & Hentry).
    unfold hasApiKey, get_property in Hkey.
    rewrite Hentry, lookup_empty in Hkey. discriminate Hkey.
Qed.

(** ** Stopping and starting *)

Lemma exec_stays_stopped a op :
  not_start op → client a = None → client (exec a op) = None.
Proof.
  intros Hop Hclient.
  destruct op as [m|mode|s|p|input source env|spawned| |spawned];
    simpl in Hop; try done; cbn [exec].
  unfold query. by rewrite Hclient.
Qed.

Lemma exec_all_stays_stopped a ops :
  Forall not_start ops → client a = None → client (exec_all a ops) = None.
Proof.
  intros Hops. revert a.
  induction Hops as [|op ops Hop _ IH]; intros a Hclient; [done|].
  unfold exec_all in *. simpl. by apply IH, exec_stays_stopped.
Qed.

(** C10. [stop] sets the process handle, the client and the cached
    session id to null and leaves the repository path, the model and the
    thinking mode as they were. From then on, whatever is called other
    than [start] or [restart], [query] throws the not-started error
    without a call to the server. A [start] that follows spawns the server
    for the model kept and, when the spawn succeeds, binds the client to
    the repository path kept. *)
Theorem stop_frame (a : SupportAgent) :
  let stopped := after (stop a) in
  (serverProc stopped = None ∧ client stopped = None
   ∧ currentSessionId stopped = None)
  ∧ (repositoryPath stopped = repositoryPath a
     ∧ _currentModel stopped = _currentModel a
     ∧ _currentMode stopped = _currentMode a)
  ∧ (∀ ops input source env,
        Forall not_start ops →
        outcome (query (exec_all stopped ops) input source env)
        = Threw (str "Agent not started")
        ∧ calls (query (exec_all stopped ops) input source env) = [])
  ∧ (∀ spawned,
        calls (start stopped spawned) = [SpawnServer (_currentModel a)]
        ∧ ∀ process url,
            spawned = inr (process, url) →
            outcome (start stopped spawned) = Returned ()
            ∧ client (after (start stopped spawned))
              = Some {| baseUrl := url;
                        directory := match repositoryPath a with
                                     | Some (c :: path) => Some (c :: path)
                                     | _ => None
                                     end |}
            ∧ repositoryPath (after (start stopped spawned)) = repositoryPath a
            ∧ _currentModel (after (start stopped spawned)) = _currentModel a).
Proof.
  cbv zeta. split; [done|]. split; [done|]. split.
  - intros ops input source env Hops. unfold query.
    by rewrite exec_all_stays_stopped.
  - intros spawned. split; [by destruct spawned as [message|[process url]]|].
    intros process url ->. simpl. repeat split.
    by destruct (repositoryPath a) as [[|c path]|].
Qed.

Lemma stop_frame_witness :
  outcome
    (query
       (exec_all (after (stop (started (Some (str "ses_1")) (str "openai/gpt-5"))))
          [ OpSetModel (str "zai/glm-4.7"); OpSetRepositoryPath (str "./repo");
            OpQuery (str "hi") None
              {| session_create := Some (str "ses_2");
                 event_stream := {| items := []; ending := Done |} |};
            OpStop ])
       (str "hello") None
       {| session_create := Some (str "ses_3");
          event_stream := {| items := []; ending := Done |} |})
  = Threw (str "Agent not started").
Proof.
  apply (proj1 (proj2 (proj2 (stop_frame
           (started (Some (str "ses_1")) (str "openai/gpt-5")))))).
  repeat constructor.
Defined.

(** * Further properties of the agent *)

(** ** What a query depends on *)

Lemma gen_without_others sessionID events e :
  gen sessionID (List.filter (qualifies sessionID) events) e
  = gen sessionID events e.
Proof.
  induction events as [|ev events IH]; simpl; [done|].
  rewrite qualifies_other.
  destruct (other_session sessionID ev) eqn:Hother; simpl; [done|].
  by rewrite Hother, IH.
Qed.

Lemma gen_cut_at_idle sessionID pre ev post e e' :
  idle_of sessionID ev = true →
  gen sessionID (pre ++ ev :: post) e = gen sessionID (pre ++ [ev]) e'.
Proof.
  intros Hidle. induction pre as [|x pre IH]; simpl.
  - by rewrite (idle_of_not_other _ _ Hidle), Hidle.
  - destruct (other_session sessionID x); [done|].
    destruct (idle_of sessionID x); [done|]. by rewrite IH.
Qed.

Lemma gen_ending sessionID events e :
  ending (gen sessionID events e)
  = if existsb (idle_of sessionID) events then Done else e.
Proof.
  induction events as [|ev events IH]; simpl; [done|].
  destruct (other_session sessionID ev) eqn:Hother.
  - destruct (idle_of sessionID ev) eqn:Hidle; [|done].
    by rewrite (idle_of_not_other _ _ Hidle) in Hother.
  - by destruct (idle_of sessionID ev).
Qed.

(** The run of [query] is a function of the agent, the arguments, the
    session worked on and what the filter hands over. *)
Lemma query_by_filtered a input source env env' sid :
  session_for a env = Some sid →
  session_for a env' = Some sid →
  sessionEvents sid (event_stream env) = sessionEvents sid (event_stream env') →
  query a input source env = query a input source env'.
Proof.
  intros Hsid Hsid' Hsame. unfold query.
  destruct (client a); [|done]. by rewrite Hsid, Hsid', Hsame.
Qed.

(** X1. A query is isolated from the rest of the feed: taking out of the
    global feed the events that carry the id of another session changes
    nothing of the run (outcome, agent left, calls made), and neither does
    whatever the feed holds, or how it ends, after an idle event of the
    session worked on. *)
Theorem query_isolation a input source env sid :
  session_for a env = Some sid →
  query a input source env
  = query a input source
      {| session_create := session_create env;
         event_stream :=
           {| items := List.filter (qualifies sid) (items (event_stream env));
              ending := ending (event_stream env) |} |}
  ∧ ∀ pre ev post e',
      items (event_stream env) = pre ++ ev :: post →
      idle_of sid ev = true →
      query a input source env
      = query a input source
          {| session_create := session_create env;
             event_stream := {| items := pre ++ [ev]; ending := e' |} |}.
Proof.
  intros Hsid. split.
  - apply (query_by_filtered _ _ _ _ _ sid); [done|done|].
    unfold sessionEvents. simpl. by rewrite gen_without_others.
  - intros pre ev post e' Hitems Hidle.
    apply (query_by_filtered _ _ _ _ _ sid); [done|done|].
    unfold sessionEvents. simpl. rewrite Hitems. by apply gen_cut_at_idle.
Qed.

Lemma query_isolation_witness :
  query (started (Some (str "s1")) (str "openai/gpt-5")) (str "hi") None
    {| session_create := None;
       event_stream :=
         {| items := [ part_updated (str "s2") (str "x") None (str "noise");
                       part_updated (str "s1") (str "a") None (str "ok");
                       session_error (str "s2") (str "not ours");
                       session_idle (str "s1") ];
            ending := Hangs |} |}
  = query (started (Some (str "s1")) (str "openai/gpt-5")) (str "hi") None
      {| session_create := None;
         event_stream :=
           {| items := [ part_updated (str "s1") (str "a") None (str "ok");
                         session_idle (str "s1") ];
              ending := Hangs |} |}.
Proof.
  apply (proj1 (query_isolation
                  (started (Some (str "s1")) (str "openai/gpt-5")) (str "hi") None
                  {| session_create := None;
                     event_stream :=
                       {| items := [ part_updated (str "s2") (str "x") None (str "noise");
                                     part_updated (str "s1") (str "a") None (str "ok");
                                     session_error (str "s2") (str "not ours");
                                     session_idle (str "s1") ];
                          ending := Hangs |} |}
                  (str "s1") eq_refl)).
Defined.

(** ** How a query settles *)

Lemma pump_collects events : collectedEvents (pump events) = events.
Proof.
  induction events as [|ev events IH] using rev_ind; [done|].
  rewrite pump_snoc. unfold pump_step.
  assert (∀ st st', collectedEvents st' = collectedEvents st ++ [ev] →
                    collectedEvents st = events →
                    collectedEvents st' = events ++ [ev]) as Hstep.
  { intros st st' -> ->. done. }
  apply (Hstep (pump events)); [|done].
  repeat (case_match; simpl; try done).
Qed.

(** X2. A query never returns an empty response: what it returns is the
    assembled answer of the events it consumed when that is not empty,
    and the fixed placeholder otherwise. *)
Theorem query_response_not_empty a input source env result :
  outcome (query a input source env) = Returned result →
  response result ≠ []
  ∧ ∃ sid, session_for a env = Some sid
      ∧ response result
        = match
            extractAnswerFromEvents (items (sessionEvents sid (event_stream env)))
          with
          | [] => str "(No response received)"
          | c :: answer => c :: answer
          end.
Proof.
  unfold query. destruct (client a); [|done].
  destruct (session_for a env) as [sid|]; [|done].
  destruct (parse_model _). simpl. unfold settle.
  rewrite pump_collects. intros Hout.
  assert (response result
          = match extractAnswerFromEvents
                    (items (sessionEvents sid (event_stream env))) with
            | [] => str "(No response received)"
            | c :: answer => c :: answer
            end) as Hresponse.
  { destruct (ending _); try done;
      repeat (case_match; simplify_eq; try done). }
  split.
  - rewrite Hresponse. destruct (extractAnswerFromEvents _); [|done].
    vm_compute. discriminate.
  - by exists sid.
Qed.

Lemma query_response_not_empty_witness :
  response {| response := str "(No response received)"; tokenUsage := None |} ≠ []
  ∧ ∃ sid,
      session_for (started (Some (str "s1")) (str "openai/gpt-5"))
        {| session_create := None;
           event_stream :=
             {| items := [ part_updated (str "s1") (str "a") None (str "  ");
                           session_idle (str "s1") ];
                ending := Hangs |} |}
      = Some sid
      ∧ str "(No response received)"
        = match
            extractAnswerFromEvents
              (items
                 (sessionEvents sid
                    {| items := [ part_updated (str "s1") (str "a") None (str "  ");
                                  session_idle (str "s1") ];
                       ending := Hangs |}))
          with
          | [] => str "(No response received)"
          | c :: answer => c :: answer
          end.
Proof.
  apply (query_response_not_empty
           (started (Some (str "s1")) (str "openai/gpt-5")) (str "hi") None
           {| session_create := None;
              event_stream :=
                {| items := [ part_updated (str "s1") (str "a") None (str "  ");
                              session_idle (str "s1") ];
                   ending := Hangs |} |}
           {| response := str "(No response received)"; tokenUsage := None |}).
  reflexivity.
Defined.

Lemma query_pending_finite a input source env sid :
  client a ≠ None →
  session_for a env = Some sid →
  outcome (query a input source env) = Pending
  ↔ ending (event_stream env) = Hangs
    ∧ Forall (λ ev, idle_of sid ev = false) (items (event_stream env)).
Proof.
  intros Hclient Hsid. rewrite (query_outcome _ _ _ _ sid) by done.
  unfold sessionEvents. rewrite gen_ending.
  destruct (existsb (idle_of sid) (items (event_stream env))) eqn:Hex.
  - split.
    + unfold settle. intros H. repeat (case_match; simplify_eq).
    + intros [_ Hall]. apply existsb_exists in Hex as (ev & Hin & Hidle).
      rewrite Forall_forall in Hall.
      apply list_elem_of_In, Hall in Hin. congruence.
  - assert (Forall (λ ev, idle_of sid ev = false) (items (event_stream env)))
      as Hall.
    { apply Forall_forall. intros ev Hin.
      destruct (idle_of sid ev) eqn:Hidle; [|done].
      assert (existsb (idle_of sid) (items (event_stream env)) = true)
        as Hyes; [|congruence].
      apply existsb_exists. exists ev. split; [by apply list_elem_of_In|done]. }
    destruct (ending (event_stream env)) eqn:Hend; simpl.
    + split; [|by intros [? _]]. intros H. repeat (case_match; simplify_eq).
    + split; [|by intros [? _]]. intros H. repeat (case_match; simplify_eq).
    + done.
Qed.

Lemma delivered_more (feed : nat → Event) (k n : nat) :
  (k < n)%nat →
  items (delivered feed n)
  = items (delivered feed k) ++ feed k :: map feed (seq (S k) (n - S k)).
Proof.
  intros Hlt. unfold delivered. simpl.
  replace n with (k + S (n - S k))%nat at 1 by lia.
  by rewrite seq_app, map_app.
Qed.

(** X3. On a feed given as finitely many events and then its end, its
    failure or its silence, a started query stays pending for ever exactly
    when the feed goes silent and no event delivered is an idle event of
    the session: such an event, the end of the feed or a failure of the
    feed each make the query settle. On a feed that never ends, the query
    is pending, however many events have been delivered, as long as none
    of them is an idle event of the session; once one is delivered the
    query has settled, and its run is the same whatever follows. *)
Theorem query_pending a input source env sid :
  client a ≠ None →
  session_for a env = Some sid →
  (outcome (query a input source env) = Pending
   ↔ ending (event_stream env) = Hangs
     ∧ Forall (λ ev, idle_of sid ev = false) (items (event_stream env)))
  ∧ ∀ feed : nat → Event,
      ((∀ k, idle_of sid (feed k) = false) →
       ∀ n, outcome (query a input source
                       {| session_create := session_create env;
                          event_stream := delivered feed n |})
            = Pending)
      ∧ (∀ k n, idle_of sid (feed k) = true → (k < n)%nat →
           outcome (query a input source
                      {| session_create := session_create env;
                         event_stream := delivered feed n |})
           ≠ Pending
           ∧ query a input source
               {| session_create := session_create env;
                  event_stream := delivered feed n |}
             = query a input source
                 {| session_create := session_create env;
                    event_stream := delivered feed (S k) |}).
Proof.
  intros Hclient Hsid. split; [by apply query_pending_finite|].
  intros feed.
  assert (∀ n, session_for a
                 {| session_create := session_create env;
                    event_stream := delivered feed n |} = Some sid) as Hsame.
  { intros n. by rewrite <- Hsid. }
  split.
  - intros Hnone n. apply (query_pending_finite _ _ _ _ sid); [done..|].
    split; [done|]. simpl. apply Forall_forall.
    intros ev (k & -> & _)%list_elem_of_fmap. apply Hnone.
  - intros k n Hidle Hlt. split.
    + rewrite (query_pending_finite _ _ _ _ sid) by done.
      intros [_ Hall]. rewrite Forall_forall in Hall.
      rewrite (Hall (feed k)) in Hidle; [done|]. cbn [event_stream].
      rewrite (delivered_more feed k n) by done.
      apply elem_of_app. right. apply list_elem_of_here.
    + apply (query_by_filtered _ _ _ _ _ sid); [done..|].
      unfold sessionEvents. cbn [event_stream].
      rewrite (delivered_more feed k n), (delivered_more feed k (S k)) by lia.
      replace (S k - S k)%nat with 0%nat by lia. simpl map.
      transitivity (gen sid (items (delivered feed k) ++ [feed k]) Done);
        [|symmetry]; by apply gen_cut_at_idle.
Qed.

Lemma query_pending_witness :
  outcome
    (query (started (Some (str "s1")) (str "openai/gpt-5")) (str "hi") None
       {| session_create := None;
          event_stream :=
            {| items := [ part_updated (str "s1") (str "a") None (str "ok");
                          session_idle (str "s2") ];
               ending := Hangs |} |})
  = Pending
  ∧ outcome
      (query (started (Some (str "s1")) (str "openai/gpt-5")) (str "hi") None
         {| session_create := None;
            event_stream :=
              delivered (λ k, part_updated (str "s1") (str "a") None (str "ok")) 3 |})
    = Pending.
Proof.
  pose proof (query_pending
           (started (Some (str "s1")) (str "openai/gpt-5")) (str "hi") None
           {| session_create := None;
              event_stream :=
                {| items := [ part_updated (str "s1") (str "a") None (str "ok");
                              session_idle (str "s2") ];
                   ending := Hangs |} |}
           (str "s1")) as Hpending.
  destruct Hpending as [Hfinite Hendless]; [discriminate|reflexivity|].
  split.
  - apply Hfinite. split; [reflexivity|]. repeat constructor.
  - apply (proj1 (Hendless (λ k, part_updated (str "s1") (str "a") None (str "ok")))).
    reflexivity.
Defined.

(** X4. A failure of the feed before the idle event of the session makes
    the query throw the message of that failure, whatever events came
    before it, a captured session error included; when that message is
    empty the failure and any captured session error are dropped and the
    query returns. *)
Theorem query_stream_failure a input source env sid message :
  client a ≠ None →
  session_for a env = Some sid →
  ending (event_stream env) = Throws message →
  Forall (λ ev, idle_of sid ev = false) (items (event_stream env)) →
  outcome (query a input source env)
  = match message with
    | _ :: _ => Threw message
    | [] =>
        let events := List.filter (qualifies sid) (items (event_stream env)) in
        let answer := extractAnswerFromEvents events in
        Returned {| response := match answer with
                                | [] => str "(No response received)"
                                | _ :: _ => answer
                                end;
                    tokenUsage := usage (pump events) |}
    end.
Proof.
  intros Hclient Hsid Hend Hall.
  rewrite (query_outcome _ _ _ _ sid) by done.
  unfold sessionEvents. rewrite gen_no_idle by done. simpl.
  rewrite Hend. unfold settle. destruct message as [|c message]; [|done].
  rewrite pump_collects. by destruct (extractAnswerFromEvents _).
Qed.

Lemma query_stream_failure_witness :
  outcome
    (query (started (Some (str "s1")) (str "openai/gpt-5")) (str "hi") None
       {| session_create := None;
          event_stream :=
            {| items := [ session_error (str "s1") (str "rate limited");
                          part_updated (str "s1") (str "a") None (str "ok") ];
               ending := Throws (str "socket closed") |} |})
  = Threw (str "socket closed").
Proof.
  apply (query_stream_failure
           (started (Some (str "s1")) (str "openai/gpt-5")) (str "hi") None
           {| session_create := None;
              event_stream :=
                {| items := [ session_error (str "s1") (str "rate limited");
                              part_updated (str "s1") (str "a") None (str "ok") ];
                   ending := Throws (str "socket closed") |} |}
           (str "s1") (str "socket closed")).
  - discriminate.
  - reflexivity.
  - reflexivity.
  - repeat constructor.
Defined.

(** ** What the operations change *)

(** X5. A query leaves the client, the process handle, the repository
    path, the model and the thinking mode as they are, and touches the
    cached session id only to store the id of a session it has just
    created. *)
Theorem query_frame a input source env :
  let a' := after (query a input source env) in
  client a' = client a
  ∧ serverProc a' = serverProc a
  ∧ repositoryPath a' = repositoryPath a
  ∧ _currentModel a' = _currentModel a
  ∧ _currentMode a' = _currentMode a
  ∧ (currentSessionId a' = currentSessionId a
     ∨ (truthy_ostr (currentSessionId a) = false
        ∧ SessionCreate ∈ calls (query a input source env)
        ∧ is_Some (session_create env)
        ∧ currentSessionId a' = session_create env)).
Proof.
  cbv zeta. unfold query, session_for.
  destruct (client a) eqn:Hclient; [|by repeat split; try left].
  destruct (truthy_ostr (currentSessionId a)) eqn:Htruthy.
  - destruct (currentSessionId a) as [sid|] eqn:Hsid; [|done].
    destruct (parse_model _). simpl. by repeat split; try left.
  - destruct (session_create env) as [sid|] eqn:Hcreate;
      [|by repeat split; try left].
    destruct (parse_model _). simpl. repeat split; try done.
    right. repeat split; try done. apply list_elem_of_here.
Qed.

(** X6. [restart] stops the server and spawns it again for the current
    model, and drops the cached session. When the spawn succeeds the
    client is bound to the new address and the first query creates a new
    session; when it fails [restart] throws the message of the spawn and
    leaves the agent stopped, so that every query throws the not-started
    error. *)
Theorem restart_spec a spawned :
  calls (restart a spawned)
  = [StopServer (serverProc a); SpawnServer (_currentModel a)]
  ∧ currentSessionId (after (restart a spawned)) = None
  ∧ match spawned with
    | inl message =>
        outcome (restart a spawned) = Threw message
        ∧ client (after (restart a spawned)) = None
        ∧ serverProc (after (restart a spawned)) = None
        ∧ ∀ input source env,
            outcome (query (after (restart a spawned)) input source env)
            = Threw (str "Agent not started")
    | inr (process, url) =>
        outcome (restart a spawned) = Returned ()
        ∧ client (after (restart a spawned))
          = Some {| baseUrl := url;
                    directory := match repositoryPath a with
                                 | Some (c :: path) => Some (c :: path)
                                 | _ => None
                                 end |}
        ∧ serverProc (after (restart a spawned)) = Some process
        ∧ ∀ input source env,
            SessionCreate
            ∈ calls (query (after (restart a spawned)) input source env)
    end.
Proof.
  destruct spawned as [message|[process url]]; simpl.
  - by repeat split.
  - repeat split; try done.
    + by destruct (repositoryPath a) as [[|c path]|].
    + intros input source env. unfold query, session_for. simpl.
      destruct (session_create env); [|apply list_elem_of_here].
      destruct (parse_model _). apply list_elem_of_here.
Qed.

(** X7. [setModel] takes effect with the next query, whose prompt names
    the provider and the model the new string splits into; it makes no
    call and leaves the client as it is, so the server keeps running as
    it was spawned. *)
Theorem setModel_next_query a modelString input source env sid :
  client a ≠ None →
  session_for a env = Some sid →
  client (setModel a modelString) = client a
  ∧ serverProc (setModel a modelString) = serverProc a
  ∧ ∃ before text,
      calls (query (setModel a modelString) input source env)
      = before ++ [ EventSubscribe;
                    SessionPrompt
                      {| path_id := sid;
                         providerID := (parse_model modelString).1;
                         modelID := (parse_model modelString).2;
                         prompt_text := text |} ].
Proof.
  intros Hclient Hsid. repeat split.
  unfold query. simpl. destruct (client a); [|done].
  replace (session_for (setModel a modelString) env) with (Some sid).
  destruct (parse_model modelString) as [provider model]. simpl. eauto.
Qed.

Lemma setModel_next_query_witness :
  ∃ before text,
    calls (query (setModel (started None (str "openai/gpt-5")) (str "zai/glm-4.7"))
             (str "hi") None
             {| session_create := Some (str "ses_1");
                event_stream := {| items := []; ending := Done |} |})
    = before ++ [ EventSubscribe;
                  SessionPrompt
                    {| path_id := str "ses_1";
                       providerID := (parse_model (str "zai/glm-4.7")).1;
                       modelID := (parse_model (str "zai/glm-4.7")).2;
                       prompt_text := text |} ].
Proof.
  apply (setModel_next_query
           (started None (str "openai/gpt-5")) (str "zai/glm-4.7") (str "hi") None
           {| session_create := Some (str "ses_1");
              event_stream := {| items := []; ending := Done |} |}
           (str "ses_1")).
  - discriminate.
  - reflexivity.
Defined.

(** X8. The thinking mode reaches nothing outside the agent: with
    whatever mode set, a query settles the same way and makes the same
    calls, and [start] spawns the server the same way. *)
Theorem setThinkingMode_no_effect a mode :
  (∀ input source env,
      outcome (query (setThinkingMode a mode) input source env)
      = outcome (query a input source env)
      ∧ calls (query (setThinkingMode a mode) input source env)
        = calls (query a input source env))
  ∧ (∀ spawned,
        outcome (start (setThinkingMode a mode) spawned)
        = outcome (start a spawned)
        ∧ calls (start (setThinkingMode a mode) spawned)
          = calls (start a spawned)
        ∧ client (after (start (setThinkingMode a mode) spawned))
          = client (after (start a spawned))).
Proof.
  split.
  - intros input source env. unfold query, session_for. simpl.
    destruct (client a); [|done].
    destruct (if truthy_ostr (currentSessionId a) then _ else _); [|done].
    by destruct (parse_model _).
  - intros [message|[process url]]; by repeat split.
Qed.

(** X9. [setRepositoryPath] does not reach the running client: the
    client stays bound to the directory it was created with and queries
    run as before; the new path is taken up by the next [start], as the
    directory of the client when it is not empty and as no directory when
    it is. *)
Theorem setRepositoryPath_next_start a path :
  client (setRepositoryPath a path) = client a
  ∧ (∀ input source env,
        outcome (query (setRepositoryPath a path) input source env)
        = outcome (query a input source env)
        ∧ calls (query (setRepositoryPath a path) input source env)
          = calls (query a input source env))
  ∧ (∀ process url,
        client (after (start (setRepositoryPath a path) (inr (process, url))))
        = Some {| baseUrl := url;
                  directory := match path with
                               | [] => None
                               | _ :: _ => Some path
                               end |}).
Proof.
  split; [done|]. split.
  - intros input source env. unfold query, session_for. simpl.
    destruct (client a); [|done].
    destruct (if truthy_ostr (currentSessionId a) then _ else _); [|done].
    by destruct (parse_model _).
  - intros process url. simpl. by destruct path.
Qed.

(** ** Trimming *)

(** X10. The assembled answer neither begins nor ends with white space
    or a line terminator, trimming it again changes nothing, and it is
    empty when no event contributes a text part. *)
Theorem extractAnswerFromEvents_trimmed (events : list Event) :
  let answer := extractAnswerFromEvents events in
  (∀ c rest, answer = c :: rest → isSpace c = false)
  ∧ (∀ init c, answer = init ++ [c] → isSpace c = false)
  ∧ trim answer = answer
  ∧ (text_parts events = [] → answer = []).
Proof.
  cbv zeta. rewrite extractAnswerFromEvents_assembled. unfold assembled.
  destruct (trim_split (concat (map (latest_text (text_parts events))
                                    (first_seen (map part_id (text_parts events))))))
    as (ws1 & ws2 & _ & _ & _ & Hhead & Hlast).
  repeat split; try done.
  - by apply trim_fixed.
  - by intros ->.
Qed.

(** ** The pattern of [parseInput] *)

Lemma dot_star_end_Some (s q : jsstring) :
  dot_star_end s = Some q
  ↔ q = s ∧ forallb (λ c, negb (isLineTerminator c)) s = true.
Proof.
  unfold dot_star_end. destruct (forallb _ s); split.
  - by intros [= <-].
  - by intros [<- _].
  - done.
  - by intros [_ ?].
Qed.

Lemma spaces_then_rest_sound (s q : jsstring) :
  spaces_then_rest s = Some q →
  ∃ ws, s = ws ++ q
        ∧ forallb isSpace ws = true
        ∧ forallb (λ c, negb (isLineTerminator c)) q = true.
Proof.
  revert q. induction s as [|c s IH]; intros q; simpl.
  - intros [-> H]%dot_star_end_Some. by exists [].
  - destruct (isSpace c) eqn:Hc.
    + destruct (spaces_then_rest s) as [q'|] eqn:Hrest.
      * intros [= <-]. destruct (IH q' eq_refl) as (ws & -> & Hws & Hq).
        exists (c :: ws). simpl. by rewrite Hc, Hws.
      * intros [-> H]%dot_star_end_Some. by exists [].
    + intros [-> H]%dot_star_end_Some. by exists [].
Qed.

Lemma spaces_then_rest_complete (ws q : jsstring) :
  forallb isSpace ws = true →
  forallb (λ c, negb (isLineTerminator c)) q = true →
  is_Some (spaces_then_rest (ws ++ q)).
Proof.
  intros Hws Hq. induction ws as [|c ws IH]; simpl.
  - destruct q as [|c q]; simpl.
    + by eexists.
    + assert (dot_star_end (c :: q) = Some (c :: q)) as Hd
        by by apply dot_star_end_Some.
      destruct (isSpace c); [|by rewrite Hd].
      destruct (spaces_then_rest q); [by eexists|by rewrite Hd].
  - simpl in Hws. apply andb_true_iff in Hws as [Hc Hws].
    rewrite Hc. by destruct (IH Hws) as [q' ->].
Qed.

Lemma lazy_group_sound (seen s g1 g2 : jsstring) :
  lazy_group seen s = Some (g1, g2) →
  ∃ inside ws,
    g1 = seen ++ inside
    ∧ s = inside ++ 93%N :: ws ++ g2
    ∧ forallb (λ c, negb (isLineTerminator c)) inside = true
    ∧ forallb isSpace ws = true
    ∧ forallb (λ c, negb (isLineTerminator c)) g2 = true.
Proof.
  revert seen. induction s as [|c s IH]; intros seen; simpl; [done|].
  destruct (if (c =? 93)%N then spaces_then_rest s else None) as [q|] eqn:Hclose.
  - intros [= <- <-].
    destruct (N.eqb_spec c 93) as [->|]; [|done].
    apply spaces_then_rest_sound in Hclose as (ws & -> & Hws & Hq).
    exists [], ws. by rewrite app_nil_r.
  - destruct (isLineTerminator c) eqn:Hc; [done|].
    intros (inside & ws & -> & -> & Hin & Hws & Hq)%IH.
    exists (c :: inside), ws. simpl. rewrite Hc, Hin, <- app_assoc. done.
Qed.

Lemma lazy_group_complete (seen inside ws g2 : jsstring) :
  forallb (λ c, negb (isLineTerminator c)) inside = true →
  forallb isSpace ws = true →
  forallb (λ c, negb (isLineTerminator c)) g2 = true →
  is_Some (lazy_group seen (inside ++ 93%N :: ws ++ g2)).
Proof.
  intros Hin Hws Hq. revert seen.
  induction inside as [|c inside IH]; intros seen; simpl.
  - by destruct (spaces_then_rest_complete ws g2 Hws Hq) as [q ->].
  - simpl in Hin. apply andb_true_iff in Hin as [Hc Hin].
    apply negb_true_iff in Hc. rewrite Hc.
    destruct (if (c =? 93)%N then _ else None); [by eexists|].
    by apply IH.
Qed.

(** X11. The input line has a source exactly when it is an opening
    bracket, a group free of line terminators, a closing bracket, white
    space and a rest free of line terminators. The source and the query
    returned are then the trimmed group and rest of such a split of the
    whole line (nothing of it is lost or added), and otherwise the query
    is the trimmed line. *)
Theorem parseInput_shape (input : jsstring) :
  (is_Some (parsed_source (parseInput input))
   ↔ ∃ inside ws rest,
       input = 91%N :: inside ++ 93%N :: ws ++ rest
       ∧ forallb (λ c, negb (isLineTerminator c)) inside = true
       ∧ forallb isSpace ws = true
       ∧ forallb (λ c, negb (isLineTerminator c)) rest = true)
  ∧ (∀ source,
        parsed_source (parseInput input) = Some source →
        ∃ inside ws rest,
          input = 91%N :: inside ++ 93%N :: ws ++ rest
          ∧ forallb (λ c, negb (isLineTerminator c)) inside = true
          ∧ forallb isSpace ws = true
          ∧ forallb (λ c, negb (isLineTerminator c)) rest = true
          ∧ source = trim inside
          ∧ parsed_query (parseInput input) = trim rest)
  ∧ (parsed_source (parseInput input) = None →
     parsed_query (parseInput input) = trim input).
Proof.
  unfold parseInput, sourceMatch.
  assert (∀ g1 g2, lazy_group [] (tail input) = Some (g1, g2) →
                   head input = Some 91%N →
                   ∃ inside ws rest,
                     input = 91%N :: inside ++ 93%N :: ws ++ rest
                     ∧ forallb (λ c, negb (isLineTerminator c)) inside = true
                     ∧ forallb isSpace ws = true
                     ∧ forallb (λ c, negb (isLineTerminator c)) rest = true
                     ∧ g1 = inside ∧ g2 = rest) as Hsound.
  { intros g1 g2 Hmatch Hhead.
    destruct input as [|c s]; [done|]. simplify_eq/=.
    apply lazy_group_sound in Hmatch
      as (inside & ws & -> & -> & Hin & Hws & Hq).
    by exists inside, ws, g2. }
  destruct input as [|c s]; simpl.
  { repeat split; try done; try (by intros [? [=]]).
    by intros (? & ? & ? & [=] & _). }
  destruct (N.eqb_spec c 91) as [->|Hne]; simpl.
  - destruct (lazy_group [] s) as [[g1 g2]|] eqn:Hmatch; simpl.
    + destruct (Hsound g1 g2 Hmatch eq_refl)
        as (inside & ws & rest & Hs & Hin & Hws & Hq & -> & ->).
      repeat split; try done.
      * intros _. by exists inside, ws, rest.
      * intros source [= <-]. by exists inside, ws, rest.
    + repeat split; try done; try (by intros [? [=]]).
      intros (inside & ws & rest & [= ->] & Hin & Hws & Hq).
      destruct (lazy_group_complete [] inside ws rest Hin Hws Hq) as [? H].
      congruence.
  - repeat split; try done; try (by intros [? [=]]).
    intros (? & ? & ? & [= -> _] & _). done.
Qed.

Lemma parseInput_shape_witness :
  ∃ inside ws rest,
    str "[docs]   how?" = 91%N :: inside ++ 93%N :: ws ++ rest
    ∧ forallb (λ c, negb (isLineTerminator c)) inside = true
    ∧ forallb isSpace ws = true
    ∧ forallb (λ c, negb (isLineTerminator c)) rest = true
    ∧ str "docs" = trim inside
    ∧ parsed_query (parseInput (str "[docs]   how?")) = trim rest.
Proof.
  apply (proj1 (proj2 (parseInput_shape (str "[docs]   how?"))) (str "docs")).
  reflexivity.
Defined.

(** ** The model string, joined and split *)

Lemma split_on_join sep (p rest : jsstring) :
  sep ∉ p → split_on sep (p ++ sep :: rest) = p :: split_on sep rest.
Proof.
  induction p as [|c p IH]; simpl; intros Hnot.
  - by rewrite N.eqb_refl.
  - apply not_elem_of_cons in Hnot as [Hne Hnot].
    destruct (N.eqb_spec c sep) as [->|_]; [done|].
    by rewrite IH.
Qed.

(** X12. The string the selection menu builds, the provider id, a slash
    and the model id, splits back into that provider and that model when
    neither holds a slash. When the model id holds a slash only its part
    before the slash is sent as the model: the rest is dropped. *)
Theorem parse_model_join (provider model : jsstring) :
  47%N ∉ provider →
  (47%N ∉ model →
   parse_model (provider ++ 47%N :: model) = (provider, Some model))
  ∧ (∀ first rest,
        model = first ++ 47%N :: rest → 47%N ∉ first →
        parse_model (provider ++ 47%N :: model) = (provider, Some first)).
Proof.
  intros Hprovider. unfold parse_model. split.
  - intros Hmodel. by rewrite split_on_join, split_on_absent.
  - intros first rest -> Hfirst. by rewrite !split_on_join.
Qed.

Lemma parse_model_join_witness :
  parse_model (str "zai" ++ 47%N :: str "org/glm-4.7") = (str "zai", Some (str "org")).
Proof.
  apply (proj2 (parse_model_join (str "zai") (str "org/glm-4.7")
                  ltac:(by apply (bool_decide_eq_false_1 (47%N ∈ str "zai"))))
           (str "org") (str "glm-4.7") eq_refl).
  by apply (bool_decide_eq_false_1 (47%N ∈ str "org")).
Defined.

(** ** A blank source *)

Lemma isWhiteSpace_plain c :
  isWhiteSpace c = true →
  isSpace c = true ∧ isLineTerminator c = false ∧ c ≠ 93%N.
Proof.
  unfold isSpace. intros Hc. rewrite Hc. split; [done|]. split.
  - destruct (isLineTerminator c) eqn:Hlt; [|done].
    unfold isLineTerminator in Hlt. rewrite !orb_true_iff, !N.eqb_eq in Hlt.
    destruct Hlt as [[[->| ->]| ->]| ->]; discriminate Hc.
  - intros ->. discriminate Hc.
Qed.

Lemma trimStart_blank (ws : jsstring) :
  forallb isWhiteSpace ws = true → trimStart ws = [].
Proof.
  induction ws as [|c ws IH]; simpl; [done|].
  intros [Hc Hws]%andb_true_iff.
  destruct (isWhiteSpace_plain c Hc) as (-> & _). auto.
Qed.

(** X13. A bracket pair that holds only white space gives an empty
    source, and a query called with that source sends the question as it
    is, without the source template, as when no source is given. *)
Theorem blank_source_is_no_source a env sid (ws rest : jsstring) :
  client a ≠ None →
  session_for a env = Some sid →
  forallb isWhiteSpace ws = true →
  forallb (λ c, negb (isLineTerminator c)) (trimStart rest) = true →
  parseInput (91%N :: ws ++ 93%N :: rest)
  = {| parsed_source := Some []; parsed_query := trim rest |}
  ∧ ∃ before provider model,
      calls (query a (parsed_query (parseInput (91%N :: ws ++ 93%N :: rest)))
               (parsed_source (parseInput (91%N :: ws ++ 93%N :: rest))) env)
      = before ++ [ EventSubscribe;
                    SessionPrompt {| path_id := sid; providerID := provider;
                                     modelID := model;
                                     prompt_text := trim rest |} ].
Proof.
  intros Hclient Hsid Hws Hrest.
  assert (parseInput (91%N :: ws ++ 93%N :: rest)
          = {| parsed_source := Some []; parsed_query := trim rest |}) as ->.
  { unfold parseInput. simpl. rewrite lazy_group_closed, trim_trimStart; try done.
    - unfold trim. by rewrite trimStart_blank.
    - intros Hin. rewrite forallb_forall in Hws.
      apply list_elem_of_In, Hws, isWhiteSpace_plain in Hin. tauto.
    - apply forallb_forall. intros c Hin. rewrite forallb_forall in Hws.
      apply Hws, isWhiteSpace_plain in Hin as (_ & -> & _). done. }
  split; [done|]. simpl. unfold query.
  destruct (client a); [|done]. rewrite Hsid.
  destruct (parse_model _) as [provider model]. simpl. eauto.
Qed.

Lemma blank_source_is_no_source_witness :
  parseInput (91%N :: str "  " ++ 93%N :: str " what is this?")
  = {| parsed_source := Some []; parsed_query := trim (str " what is this?") |}.
Proof.
  apply (blank_source_is_no_source
           (started (Some (str "s1")) (str "openai/gpt-5"))
           {| session_create := None;
              event_stream := {| items := []; ending := Done |} |}
           (str "s1") (str "  ") (str " what is this?")).
  - discriminate.
  - reflexivity.
  - reflexivity.
  - reflexivity.
Defined.

(** ** The table of API keys *)

(** X14. Among the providers offered for selection, those that require
    an API key are exactly those the table gives a variable for, and the
    table gives them a non-empty name; no two keys of the table, the
    inherited ones included, lead to the same variable; and setting the
    variable of a provider to a non-empty key makes its key check pass
    and leaves the key check of every other provider as it was. *)
Theorem api_key_table :
  (∀ providerId : jsstring,
      providerId ∈ allowedProviders →
      (requiresApiKey providerId = true ↔ is_Some (getApiKeyEnvVar providerId))
      ∧ ∀ v, getApiKeyEnvVar providerId = Some v →
             ∃ c name, v = VString (c :: name))
  ∧ (∀ (p q : jsstring) (v v' : Value),
        getApiKeyEnvVar p = Some v → getApiKeyEnvVar q = Some v' →
        to_property_key v = to_property_key v' → p = q)
  ∧ (∀ (env : gmap jsstring jsstring) (p : jsstring) (v : Value)
       (key : jsstring),
        getApiKeyEnvVar p = Some v → key ≠ [] →
        hasApiKey (<[to_property_key v := key]> env) p = true
        ∧ ∀ q : jsstring, q ≠ p →
            hasApiKey (<[to_property_key v := key]> env) q = hasApiKey env q).
Proof.
  split; [|split].
  - unfold allowedProviders. intros providerId Hin.
    repeat (apply elem_of_cons in Hin as [->|Hin]);
      [..|by apply elem_of_nil in Hin];
      (split;
       [split; [intros H; first [discriminate H | by eexists]
               |intros [v H]; first [discriminate H | reflexivity]]
       |intros v H; first [discriminate H
                          | (injection H as <-; by eexists _, _)]]).
  - apply api_key_env_injective.
  - intros env p v key Hp Hkey.
    pose proof (api_key_value_truthy p v Hp) as Htruthy.
    split.
    + unfold hasApiKey. unfold getApiKeyEnvVar in Hp. rewrite Hp, Htruthy.
      rewrite lookup_insert_eq. by destruct key.
    + intros q Hq. unfold hasApiKey.
      destruct (get_property PROVIDER_API_KEYS q) as [v'|] eqn:Hv'; [|done].
      destruct (truthy_value v'); [|done].
      rewrite lookup_insert_ne; [done|].
      intros Heq. apply Hq. symmetry.
      by apply (api_key_env_injective p q v v').
Qed.

Lemma api_key_table_witness :
  hasApiKey (<[str "OPENAI_API_KEY" := str "sk-0123456789"]> ∅) (str "openai") = true.
Proof.
  apply (proj2 (proj2 api_key_table) ∅ (str "openai")
           (VString (str "OPENAI_API_KEY")) (str "sk-0123456789")).
  - reflexivity.
  - discriminate.
Defined.

(** ** The models offered *)

Lemma match_literal_Some (literal subject rest : jsstring) :
  match_literal literal subject = Some rest
  ↔ ∃ found, subject = found ++ rest
             ∧ map canonicalize found = map canonicalize literal.
Proof.
  revert subject. induction literal as [|p literal IH]; intros subject; simpl.
  - split.
    + intros [= <-]. by exists [].
    + intros (found & -> & Hfound). by destruct found.
  - destruct subject as [|c subject].
    + split; [done|]. intros (found & Hs & Hfound).
      by destruct found.
    + destruct (N.eqb_spec (canonicalize p) (canonicalize c)) as [Heq|Hne].
      * rewrite IH. split.
        -- intros (found & -> & Hfound). exists (c :: found).
           simpl. by rewrite Hfound, Heq.
        -- intros (found & Hs & Hfound). destruct found as [|c' found]; [done|].
           simpl in *. simplify_eq. by exists found.
      * split; [done|]. intros (found & Hs & Hfound).
        destruct found as [|c' found]; [done|]. simpl in *. simplify_eq.
Qed.

Lemma match_here_spec pattern (subject : jsstring) :
  match_here pattern subject = true
  ↔ match pattern with
    | Anywhere literal =>
        ∃ found behind, subject = found ++ behind
                        ∧ map canonicalize found = map canonicalize literal
    | AtEnd literal => map canonicalize subject = map canonicalize literal
    end.
Proof.
  destruct pattern as [literal|literal]; simpl.
  - destruct (match_literal literal subject) as [rest|] eqn:Hm.
    + apply match_literal_Some in Hm as (found & -> & Hfound).
      split; [|done]. intros _. by exists found, rest.
    + split; [done|]. intros (found & behind & -> & Hfound).
      assert (match_literal literal (found ++ behind) = Some behind) as Hyes
        by (apply match_literal_Some; eauto).
      congruence.
  - destruct (match_literal literal subject) as [rest|] eqn:Hm.
    + apply match_literal_Some in Hm as (found & -> & Hfound).
      destruct rest as [|c rest].
      * by rewrite app_nil_r.
      * split; [done|]. intros Hall.
        apply (f_equal length) in Hall, Hfound.
        rewrite !length_map, ?length_app in *. simpl in *. lia.
    + split; [done|]. intros Hall.
      assert (match_literal literal subject = Some []) as Hyes.
      { apply match_literal_Some. exists subject. by rewrite app_nil_r. }
      congruence.
Qed.

Lemma test_matches pattern (s : jsstring) :
  test pattern s = true ↔ matches pattern s.
Proof.
  induction s as [|c s IH]; simpl.
  - rewrite orb_false_r, match_here_spec.
    destruct pattern as [literal|literal]; simpl.
    + split.
      * intros (found & behind & Hs & Hfound). by exists [], found, behind.
      * intros (before & found & behind & Hs & Hfound).
        destruct before; [|done]. by exists found, behind.
    + split.
      * intros Hall. by exists [], [].
      * intros (before & found & Hs & Hfound).
        destruct before; [|done]. simpl in Hs. by subst.
  - rewrite orb_true_iff, IH, match_here_spec.
    destruct pattern as [literal|literal]; simpl.
    + split.
      * intros [(found & behind & Hs & Hfound)
               |(before & found & behind & -> & Hfound)].
        -- by exists [], found, behind.
        -- by exists (c :: before), found, behind.
      * intros (before & found & behind & Hs & Hfound).
        destruct before as [|c' before]; simpl in Hs.
        -- left. by exists found, behind.
        -- right. simplify_eq. by exists before, found, behind.
    + split.
      * intros [Hall|(before & found & -> & Hfound)].
        -- by exists [], (c :: s).
        -- by exists (c :: before), found.
      * intros (before & found & Hs & Hfound).
        destruct before as [|c' before]; simpl in Hs.
        -- left. by subst.
        -- right. simplify_eq. by exists before, found.
Qed.

Lemma filter_sublist {A} (f : A → bool) (l : list A) :
  sublist (List.filter f l) l.
Proof.
  induction l as [|x l IH]; simpl; [done|].
  destruct (f x); by constructor.
Qed.

(** X15. [filterModels] keeps, in their order, exactly the model ids
    that no exclusion pattern matches: an id is dropped when, whatever
    the case of its letters, it holds one of the literals embedding, tts,
    audio, live, image, nano, lite, gemini-1. or gemini-2.0, or ends with
    -8b or -latest. *)
Theorem filterModels_spec (models : list jsstring) :
  sublist (filterModels models) models
  ∧ ∀ modelId : jsstring,
      modelId ∈ filterModels models
      ↔ modelId ∈ models
        ∧ ¬ (occurs (str "embedding") modelId ∨ occurs (str "tts") modelId
             ∨ occurs (str "audio") modelId ∨ occurs (str "live") modelId
             ∨ occurs (str "image") modelId ∨ occurs (str "nano") modelId
             ∨ ends (str "-8b") modelId ∨ occurs (str "lite") modelId
             ∨ occurs (str "gemini-1.") modelId
             ∨ occurs (str "gemini-2.0") modelId
             ∨ ends (str "-latest") modelId).
Proof.
  split; [apply filter_sublist|].
  intros modelId. unfold filterModels.
  rewrite list_elem_of_In, filter_In, <- list_elem_of_In, negb_true_iff.
  apply and_iff_compat_l.
  rewrite <- not_true_iff_false. apply not_iff_compat.
  unfold excludedModelPatterns. simpl.
  rewrite !orb_true_iff, !test_matches. simpl.
  assert (false = true ↔ False) as -> by done. tauto.
Qed.

Lemma match_literal_canonical (literal s s' : jsstring) :
  map canonicalize s = map canonicalize s' →
  match match_literal literal s, match_literal literal s' with
  | Some rest, Some rest' => map canonicalize rest = map canonicalize rest'
  | None, None => True
  | _, _ => False
  end.
Proof.
  revert s s'. induction literal as [|p literal IH]; intros s s' Hs; simpl.
  - done.
  - destruct s as [|c s], s' as [|c' s']; try done. simpl in Hs.
    injection Hs as Hc Hs. rewrite Hc.
    destruct (canonicalize p =? canonicalize c')%N; [by apply IH|done].
Qed.

Lemma test_canonical pattern (s s' : jsstring) :
  map canonicalize s = map canonicalize s' →
  test pattern s = test pattern s'.
Proof.
  revert s'. induction s as [|c s IH]; intros s' Hs.
  - by destruct s'.
  - destruct s' as [|c' s']; [done|]. simpl in Hs.
    injection Hs as Hc Hs. simpl. f_equal; [|by apply IH].
    assert (map canonicalize (c :: s) = map canonicalize (c' :: s')) as Hall
      by (simpl; by rewrite Hc, Hs).
    pose proof (match_literal_canonical
                  match pattern with Anywhere l | AtEnd l => l end
                  (c :: s) (c' :: s') Hall) as Hm.
    destruct pattern as [literal|literal]; unfold match_here;
      destruct (match_literal literal (c :: s)) as [rest|],
               (match_literal literal (c' :: s')) as [rest'|]; try done.
    by destruct rest, rest'.
Qed.

Lemma excluded_canonical (patterns : list Pattern) (s s' : jsstring) :
  map canonicalize s = map canonicalize s' →
  existsb (λ pattern, test pattern s) patterns
  = existsb (λ pattern, test pattern s') patterns.
Proof.
  intros Hsame. induction patterns as [|pattern patterns IH]; simpl; [done|].
  by rewrite IH, (test_canonical pattern s s').
Qed.

(** X16. The case of the ASCII letters of the model ids does not bear
    on what [filterModels] keeps: of two lists of ids that differ only by
    that case it keeps the ids at the same places. *)
Theorem filterModels_case (models models' : list jsstring) :
  Forall2 (λ m m', map canonicalize m = map canonicalize m') models models' →
  Forall2 (λ m m', map canonicalize m = map canonicalize m')
          (filterModels models) (filterModels models').
Proof.
  intros Hsame. unfold filterModels.
  induction Hsame as [|m m' models models' Hm _ IH]; cbn [List.filter];
    [done|].
  rewrite (excluded_canonical _ m m') by done.
  destruct (existsb _ _); cbn [negb]; [done|]. by constructor.
Qed.

Lemma filterModels_case_witness :
  Forall2 (λ m m', map canonicalize m = map canonicalize m')
          (filterModels [str "GPT-5"; str "Text-Embedding-3"])
          (filterModels [str "gpt-5"; str "text-embedding-3"]).
Proof.
  apply (filterModels_case [str "GPT-5"; str "Text-Embedding-3"]
                           [str "gpt-5"; str "text-embedding-3"]).
  repeat constructor.
Defined.

(** ** The providers offered *)

Section Sorting.

Context {A : Type} (compare : A → A → Z).

Lemma insert_by_perm x (l : list A) : insert_by compare x l ≡ₚ x :: l.
Proof.
  induction l as [|y l IH]; simpl; [done|].
  destruct (compare x y <=? 0)%Z; [done|].
  by rewrite IH, Permutation_swap.
Qed.

Lemma sort_by_perm (l : list A) : sort_by compare l ≡ₚ l.
Proof.
  induction l as [|x l IH]; simpl; [done|].
  by rewrite insert_by_perm, IH.
Qed.

(** Elements that the comparison does not tell apart keep their order. *)
Lemma insert_by_filter (f : A → bool) x (l : list A) :
  (∀ y, f x = true → f y = true → (compare x y <= 0)%Z) →
  List.filter f (insert_by compare x l) = List.filter f (x :: l).
Proof.
  intros Hsame. induction l as [|y l IH]; simpl; [done|].
  destruct (Z.leb_spec (compare x y) 0) as [Hle|Hgt]; [done|].
  simpl in *. rewrite IH.
  destruct (f x) eqn:Hx, (f y) eqn:Hy; try done.
  specialize (Hsame y eq_refl Hy). lia.
Qed.

Lemma sort_by_filter (f : A → bool) (l : list A) :
  (∀ x y, f x = true → f y = true → (compare x y <= 0)%Z) →
  List.filter f (sort_by compare l) = List.filter f l.
Proof.
  intros Hsame. induction l as [|x l IH]; simpl; [done|].
  rewrite insert_by_filter by auto. simpl. by rewrite IH.
Qed.

End Sorting.

Section SortingByKey.

Context {A : Type} (key : A → Z).

Lemma insert_by_key_sorted x (l : list A) :
  StronglySorted (λ a b, (key a <= key b)%Z) l →
  StronglySorted (λ a b, (key a <= key b)%Z)
                 (insert_by (λ a b, (key a - key b)%Z) x l).
Proof.
  induction 1 as [|y l Hl IH Hy]; simpl.
  - by repeat constructor.
  - destruct (Z.leb_spec (key x - key y) 0) as [Hle|Hgt].
    + constructor; [by constructor|]. constructor; [lia|].
      eapply Forall_impl; [exact Hy|]. simpl. intros. lia.
    + constructor; [done|].
      rewrite (insert_by_perm _ x l). constructor; [lia|done].
Qed.

Lemma sort_by_key_sorted (l : list A) :
  StronglySorted (λ a b, (key a <= key b)%Z)
                 (sort_by (λ a b, (key a - key b)%Z) l).
Proof.
  induction l as [|x l IH]; simpl; [constructor|].
  by apply insert_by_key_sorted.
Qed.

(** A list sorted by a key is what lies below a bound followed by what
    does not. *)
Lemma sorted_split_at (bound : Z) (l : list A) :
  StronglySorted (λ a b, (key a <= key b)%Z) l →
  l = List.filter (λ a, (key a <? bound)%Z) l
      ++ List.filter (λ a, negb (key a <? bound)%Z) l.
Proof.
  induction 1 as [|x l Hl IH Hx]; simpl; [done|].
  destruct (Z.ltb_spec (key x) bound) as [Hlt|Hge]; simpl.
  - by rewrite <- IH.
  - assert (List.filter (λ a, (key a <? bound)%Z) l = []) as ->.
    { clear IH Hl. induction Hx as [|y l Hy _ IH]; simpl; [done|].
      destruct (Z.ltb_spec (key y) bound); [lia|done]. }
    simpl. f_equal.
    clear IH Hl. induction Hx as [|y l Hy _ IH]; simpl; [done|].
    destruct (Z.ltb_spec (key y) bound); [lia|]. simpl. by rewrite <- IH.
Qed.

End SortingByKey.

Lemma filter_filter_implied {A} (f g : A → bool) (l : list A) :
  (∀ x, f x = true → g x = true) →
  List.filter f (List.filter g l) = List.filter f l.
Proof.
  intros Himp. induction l as [|x l IH]; simpl; [done|].
  destruct (g x) eqn:Hg; simpl; rewrite IH; [done|].
  destruct (f x) eqn:Hf; [|done]. apply Himp in Hf. congruence.
Qed.

(** What is returned holds whitelisted providers only, arranged by the
    place of their id on the whitelist. *)
Lemma getAvailableProviders_all (ALLOWED_PROVIDERS : list jsstring)
  (a : SupportAgent) (response : ProviderListing) :
  client a ≠ None →
  ∃ providers,
    getAvailableProviders ALLOWED_PROVIDERS a response = Returned providers
    ∧ Forall (λ p, provider_id p ∈ ALLOWED_PROVIDERS) providers
    ∧ StronglySorted
        (λ p q, (indexOf ALLOWED_PROVIDERS (provider_id p)
                 <= indexOf ALLOWED_PROVIDERS (provider_id q))%Z)
        providers.
Proof.
  unfold getAvailableProviders. intros Hclient. destruct (client a); [|done].
  destruct response as [data|]; [|exists []; by repeat constructor].
  eexists. split; [done|]. split.
  - rewrite sort_by_perm. apply Forall_forall. intros p Hin.
    apply list_elem_of_In, filter_In in Hin as [_ Hin].
    by apply bool_decide_eq_true in Hin.
  - apply (sort_by_key_sorted
             (λ p, indexOf ALLOWED_PROVIDERS (provider_id p))).
Qed.

(** X17. For any whitelist, [getAvailableProviders] throws the
    not-started error without a client and returns nothing without data;
    otherwise it returns the listed providers whose id is on the
    whitelist, each as often as listed, arranged by the place of their id
    on the whitelist, the providers of one id in the order they were
    listed in. *)
Theorem getAvailableProviders_spec (ALLOWED_PROVIDERS : list jsstring)
  (a : SupportAgent) (response : ProviderListing) :
  (client a = None →
   getAvailableProviders ALLOWED_PROVIDERS a response
   = Threw (str "Agent not started"))
  ∧ (client a ≠ None →
     ∃ providers,
       getAvailableProviders ALLOWED_PROVIDERS a response = Returned providers
       ∧ (response = None ∨ response = Some None → providers = [])
       ∧ ∀ listed, response = Some (Some listed) →
           providers
           ≡ₚ List.filter (λ p, bool_decide (provider_id p ∈ ALLOWED_PROVIDERS))
                          listed
           ∧ StronglySorted
               (λ p q, (indexOf ALLOWED_PROVIDERS (provider_id p)
                        <= indexOf ALLOWED_PROVIDERS (provider_id q))%Z)
               providers
           ∧ ∀ id : jsstring,
               id ∈ ALLOWED_PROVIDERS →
               List.filter (λ p, bool_decide (provider_id p = id)) providers
               = List.filter (λ p, bool_decide (provider_id p = id)) listed).
Proof.
  unfold getAvailableProviders. split; [by intros ->|].
  intros Hclient. destruct (client a); [|done].
  destruct response as [[listed|]|]; simpl.
  - eexists. split; [done|]. split; [by intros [|]|].
    intros ? [= <-]. split; [apply sort_by_perm|]. split.
    + apply (sort_by_key_sorted
               (λ p, indexOf ALLOWED_PROVIDERS (provider_id p))).
    + intros id Hid. rewrite sort_by_filter.
      * apply filter_filter_implied. intros p Hp.
        apply bool_decide_eq_true in Hp. subst id.
        by apply bool_decide_eq_true.
      * intros p q Hp Hq. apply bool_decide_eq_true in Hp, Hq.
        rewrite Hp, Hq. lia.
  - exists []. by repeat split.
  - exists []. by repeat split.
Qed.

Lemma getAvailableProviders_spec_witness :
  getAvailableProviders [str "zai"; str "openai"]
    {| client := None; serverProc := None; currentSessionId := None;
       repositoryPath := None; _currentModel := str "zai/glm-4.7";
       _currentMode := medium |}
    (Some (Some [ {| provider_id := str "openai"; provider_models := None |} ]))
  = Threw (str "Agent not started").
Proof.
  apply (proj1 (getAvailableProviders_spec [str "zai"; str "openai"] _ _)).
  reflexivity.
Defined.

Lemma allowed_free_first (id : jsstring) :
  id ∈ allowedProviders →
  requiresApiKey id = negb (indexOf allowedProviders id <? 2)%Z.
Proof.
  unfold allowedProviders. intros Hin.
  repeat (apply elem_of_cons in Hin as [->|Hin]);
    [..|by apply elem_of_nil in Hin]; reflexivity.
Qed.

(** X18. With the whitelist of the earlier agent class, the providers
    that need no API key come first in what [getAvailableModels]
    returns: the list is a run of free providers followed by a run of
    providers that require a key, each of which has its variable in the
    table. *)
Theorem getAvailableModels_free_first (a : SupportAgent)
  (response : ProviderListing) providers :
  getAvailableModels a response = Returned providers →
  ∃ free paid,
    providers = free ++ paid
    ∧ Forall (λ p, requiresApiKey (provider_id p) = false) free
    ∧ Forall (λ p, requiresApiKey (provider_id p) = true
                   ∧ is_Some (getApiKeyEnvVar (provider_id p))) paid.
Proof.
  unfold getAvailableModels. intros Hreturned.
  destruct (client a) eqn:Hclient;
    [|unfold getAvailableProviders in Hreturned; by rewrite Hclient in Hreturned].
  destruct (getAvailableProviders_all allowedProviders a response)
    as (providers' & Heq & Hall & Hsorted); [by rewrite Hclient|].
  rewrite Heq in Hreturned. injection Hreturned as ->.
  set (key := λ p, indexOf allowedProviders (provider_id p)).
  exists (List.filter (λ p, (key p <? 2)%Z) providers),
         (List.filter (λ p, negb (key p <? 2)%Z) providers).
  split; [by apply sorted_split_at|].
  rewrite Forall_forall in Hall.
  split; apply Forall_forall; intros p Hp;
    apply list_elem_of_In, filter_In in Hp as [Hin Hkey];
    apply list_elem_of_In, Hall in Hin.
  - rewrite allowed_free_first by done. unfold key in Hkey. by rewrite Hkey.
  - assert (requiresApiKey (provider_id p) = true) as Hpaid.
    { rewrite allowed_free_first by done. unfold key in Hkey.
      by rewrite Hkey. }
    split; [done|].
    destruct (allowed_paid_has_entry _ Hin Hpaid) as (c & v & Hentry).
    unfold getApiKeyEnvVar, get_property. by rewrite Hentry.
Qed.

(** ** The command loop *)

Lemma chosen_elem {A} (input : jsstring) (l : list A) x :
  chosen input l = Some x → x ∈ l.
Proof.
  unfold chosen. destruct (parseInt input) as [number|]; [|done].
  destruct (_ || _); [done|]. apply list_elem_of_lookup_2.
Qed.

Lemma getAvailableModels_allowed a response providers :
  getAvailableModels a response = Returned providers →
  Forall (λ p, provider_id p ∈ allowedProviders) providers.
Proof.
  unfold getAvailableModels. intros Hreturned.
  destruct (client a) eqn:Hclient;
    [|unfold getAvailableProviders in Hreturned; by rewrite Hclient in Hreturned].
  destruct (getAvailableProviders_all allowedProviders a response)
    as (providers' & Heq & Hall & _); [by rewrite Hclient|].
  congruence.
Qed.

Lemma show_models_well_formed r provider env r' requests :
  Forall (λ p, provider_id p ∈ allowedProviders) (availableProviders r) →
  provider_id provider ∈ allowedProviders →
  (requiresApiKey (provider_id provider) = true →
   hasApiKey env (provider_id provider) = true) →
  show_models r provider env = Continues r' requests →
  well_formed r'.
Proof.
  intros Hall Hallowed Hkey [= <- <-]. split; [done|]. split; simpl.
  - intros _. by exists provider.
  - by intros _ ? [= <-].
Qed.

Lemma hasApiKey_after_entry env (id input : jsstring) :
  input ≠ [] →
  hasApiKey (set_key env (getApiKeyEnvVar id) input) id = true.
Proof.
  intros Hinput. unfold hasApiKey, set_key, getApiKeyEnvVar.
  destruct (get_property PROVIDER_API_KEYS id) as [v|]; [|done].
  simpl. destruct (truthy_value v); [|done].
  rewrite lookup_insert_eq. by destruct input.
Qed.

Lemma well_formed_idle r :
  Forall (λ p, provider_id p ∈ allowedProviders) (availableProviders r) →
  state r = normal ∨ state r = selecting_provider →
  well_formed r.
Proof.
  intros Hall Hstate. split; [done|]. split.
  - intros [H|H]; rewrite H in Hstate; by destruct Hstate.
  - intros H. rewrite H in Hstate. by destruct Hstate.
Qed.

Lemma handle_line_well_formed r line w r' requests :
  well_formed r →
  handle_line r line w = Continues r' requests →
  well_formed r'.
Proof.
  intros Hwf. pose proof Hwf as (Hall & Hselected & Hmodels).
  unfold handle_line. cbv zeta.
  destruct (state r) eqn:Hstate.
  - (* normal *)
    destruct (startsWith _ (str "/exit")); [done|].
    destruct (_ || _).
    { destruct (getAvailableModels _ _) as [providers| |] eqn:Hlist;
        [|by intros [= <- <-]..].
      apply getAvailableModels_allowed in Hlist.
      destruct providers as [|p providers]; intros [= <- <-];
        apply well_formed_idle; simpl; auto. }
    destruct (startsWith _ (str "/mode")).
    { destruct (split_on 32 _) as [|command [|name [|]]];
        try by intros [= <- <-].
      repeat case_match; intros [= <- <-]; try done;
        apply well_formed_idle; simpl; auto. }
    destruct (trim (trim line)); intros [= <- <-]; [done|].
    apply well_formed_idle; simpl; auto.
  - (* selecting_provider *)
    destruct (_ || _).
    { intros [= <- <-]. apply well_formed_idle; simpl; auto. }
    destruct (chosen _ _) as [provider|] eqn:Hchosen; [|by intros [= <- <-]].
    apply chosen_elem in Hchosen.
    rewrite Forall_forall in Hall. pose proof (Hall _ Hchosen) as Hallowed.
    destruct (requiresApiKey _ && _) eqn:Hneeds.
    + intros [= <- <-]. split; [by apply Forall_forall|]. split; simpl.
      * intros _. by exists provider.
      * done.
    + apply show_models_well_formed; try done; [by apply Forall_forall|].
      intros Hpaid. rewrite Hpaid in Hneeds. simpl in Hneeds.
      by apply negb_false_iff in Hneeds.
  - (* selecting_model *)
    destruct (_ || _).
    { intros [= <- <-]. apply well_formed_idle; simpl; auto. }
    destruct (chosen _ _) as [modelId|]; [|by intros [= <- <-]].
    destruct (selectedProvider r); [|done].
    intros [= <- <-]. apply well_formed_idle; simpl; auto.
  - (* entering_api_key *)
    destruct (_ || _).
    { intros [= <- <-]. apply well_formed_idle; simpl; auto. }
    destruct (10 <? length (trim line))%nat eqn:Hlong; [|by intros [= <- <-]].
    destruct Hselected as (provider & Hsel & Hallowed); [by right|].
    rewrite Hsel. apply show_models_well_formed; try done.
    intros _. apply hasApiKey_after_entry.
    apply Nat.ltb_lt in Hlong. destruct (trim line); [simpl in Hlong; lia|done].
Qed.

Lemma reachable_well_formed r : reachable r → well_formed r.
Proof.
  induction 1 as [a env|r line w r' requests _ IH Hstep].
  - repeat split; simpl; try done. by intros [|].
  - by apply (handle_line_well_formed r line w r' requests).
Qed.

(** X19. However the lines come, the handler never reads a property of
    a provider that has not been selected: in every state the loop gets
    into from its start, handling a line does not fail on the null
    [selectedProvider]. *)
Theorem handle_line_never_crashes r line w :
  reachable r → crashes (handle_line r line w) = false.
Proof.
  intros (_ & Hselected & _)%reachable_well_formed. unfold handle_line.
  destruct (state r) eqn:Hstate.
  - repeat case_match; done.
  - repeat case_match; done.
  - destruct Hselected as (provider & -> & _); [by left|].
    repeat case_match; done.
  - destruct Hselected as (provider & -> & _); [by right|].
    unfold show_models. repeat case_match; done.
Qed.

Lemma handle_line_never_crashes_witness :
  crashes
    (handle_line (repl_start (started None (str "google/gemini-2.5-flash")) ∅)
       (str "1")
       {| listing := None;
          answering := {| Earlier.created := None;
                          Earlier.prompted := Earlier.PromptHangs |} |})
  = false.
Proof.
  apply (handle_line_never_crashes
           (repl_start (started None (str "google/gemini-2.5-flash")) ∅)).
  apply reachable_start.
Defined.

Lemma sample_choosing_reachable : reachable sample_choosing.
Proof.
  apply (reachable_line
           {| state := selecting_provider;
              availableProviders := [sample_provider];
              selectedProvider := None; filteredModels := [];
              agent := started None (str "google/gemini-2.5-flash");
              environment := ∅ |}
           (str "1") sample_world _ []).
  - apply (reachable_line
             (repl_start (started None (str "google/gemini-2.5-flash")) ∅)
             (str "/model") sample_world _ [ListProviders]).
    + apply reachable_start.
    + reflexivity.
  - reflexivity.
Qed.

Lemma allowed_no_slash (id : jsstring) : id ∈ allowedProviders → 47%N ∉ id.
Proof.
  unfold allowedProviders. intros Hin.
  repeat (apply elem_of_cons in Hin as [->|Hin]);
    [..|by apply elem_of_nil in Hin];
    by apply (bool_decide_eq_false_1 (47%N ∈ _)).
Qed.

Lemma split_on_first sep (s : jsstring) :
  ∃ first rest, split_on sep s = first :: rest.
Proof.
  induction s as [|c s (first & rest & IH)]; simpl; [by eexists _, _|].
  destruct (c =? sep)%N; [by eexists _, _|]. rewrite IH. by eexists _, _.
Qed.

Lemma earlier_query_frame a input source w :
  _currentModel (after (Earlier.query a input source w)) = _currentModel a
  ∧ _currentMode (after (Earlier.query a input source w)) = _currentMode a.
Proof.
  unfold Earlier.query. destruct (client a); [|done].
  destruct (if truthy_ostr _ then _ else _); [|done].
  by destruct (parse_model _).
Qed.

(** X20. In the command loop the model changes only by the choice of a
    model from the menu. The new model string is then the id of the
    selected provider, a slash and an id that [filterModels] kept of that
    provider's models; the provider is on the whitelist and, if it
    requires an API key, passes the key check; and the string splits into
    that provider and a defined model. *)
Theorem menu_sets_model r line w r' requests :
  reachable r →
  handle_line r line w = Continues r' requests →
  _currentModel (agent r') ≠ _currentModel (agent r) →
  ∃ provider modelId,
    state r = selecting_model ∧ state r' = normal ∧ requests = []
    ∧ selectedProvider r = Some provider
    ∧ provider_id provider ∈ allowedProviders
    ∧ modelId ∈ filterModels (default [] (provider_models provider))
    ∧ (requiresApiKey (provider_id provider) = true →
       hasApiKey (environment r) (provider_id provider) = true)
    ∧ _currentModel (agent r') = provider_id provider ++ 47%N :: modelId
    ∧ ∃ model,
        parse_model (_currentModel (agent r'))
        = (provider_id provider, Some model).
Proof.
  intros (_ & Hselected & Hmodels)%reachable_well_formed.
  unfold handle_line. cbv zeta.
  destruct (state r) eqn:Hstate.
  - destruct (startsWith _ (str "/exit")); [done|].
    destruct (_ || _).
    { destruct (getAvailableModels _ _) as [[|p providers]| |];
        by intros [= <- <-]. }
    destruct (startsWith _ (str "/mode")).
    { destruct (split_on 32 _) as [|command [|name [|]]];
        try by intros [= <- <-].
      repeat case_match; by intros [= <- <-]. }
    destruct (trim (trim line)); intros [= <- <-]; [done|]. simpl.
    intros Hne. by destruct (earlier_query_frame (agent r)
      (parsed_query (parseInput (trim line)))
      (parsed_source (parseInput (trim line))) (answering w)).
  - destruct (_ || _); [by intros [= <- <-]|].
    destruct (chosen _ _) as [provider|]; [|by intros [= <- <-]].
    destruct (_ && _); by intros [= <- <-].
  - destruct (_ || _); [by intros [= <- <-]|].
    destruct (chosen _ _) as [modelId|] eqn:Hchosen; [|by intros [= <- <-]].
    destruct Hselected as (provider & Hsel & Hallowed); [by left|].
    rewrite Hsel. intros [= <- <-] _. simpl.
    destruct (Hmodels eq_refl provider Hsel) as [Hfiltered Hkey].
    exists provider, modelId. repeat split; try done.
    + rewrite <- Hfiltered. by apply chosen_elem in Hchosen.
    + unfold parse_model.
      rewrite split_on_join by by apply allowed_no_slash.
      destruct (split_on_first 47 modelId) as (first & rest & ->).
      by exists first.
  - destruct (_ || _); [by intros [= <- <-]|].
    destruct (_ <? _)%nat; [|by intros [= <- <-]].
    destruct (selectedProvider r); [|done]. by intros [= <- <-].
Qed.

Lemma menu_sets_model_witness :
  ∃ provider modelId,
    state sample_choosing = selecting_model ∧ normal = normal
    ∧ @nil Request = []
    ∧ selectedProvider sample_choosing = Some provider
    ∧ provider_id provider ∈ allowedProviders
    ∧ modelId ∈ filterModels (default [] (provider_models provider))
    ∧ (requiresApiKey (provider_id provider) = true →
       hasApiKey (environment sample_choosing) (provider_id provider) = true)
    ∧ str "zai/glm-4.7" = provider_id provider ++ 47%N :: modelId
    ∧ ∃ model,
        parse_model (str "zai/glm-4.7") = (provider_id provider, Some model).
Proof.
  apply (menu_sets_model sample_choosing (str " 1 ") sample_world
           {| state := normal;
              availableProviders := [sample_provider];
              selectedProvider := Some sample_provider;
              filteredModels := [str "glm-4.7"];
              agent := started None (str "zai/glm-4.7");
              environment := ∅ |}
           []).
  - apply sample_choosing_reachable.
  - reflexivity.
  - intros H. vm_compute in H. discriminate H.
Defined.

(** X21. While a key is awaited, a line of at most ten units, other
    than back or 0, is refused and leaves the loop as it is. A longer
    line is taken as the key whatever it holds: it is stored, trimmed,
    under the variable of the selected provider, whose key check passes
    from then on while the key check of every other provider stays as it
    was, and the models of the provider are offered. *)
Theorem api_key_entry r line w provider :
  state r = entering_api_key →
  selectedProvider r = Some provider →
  says_back (trim line) || strict_eq (trim line) (str "0") = false →
  ((length (trim line) ≤ 10)%nat → handle_line r line w = Continues r [])
  ∧ ((10 < length (trim line))%nat →
     ∃ r',
       handle_line r line w = Continues r' []
       ∧ agent r' = agent r
       ∧ hasApiKey (environment r') (provider_id provider) = true
       ∧ (∀ envVar : Value,
             getApiKeyEnvVar (provider_id provider) = Some envVar →
             environment r' !! to_property_key envVar = Some (trim line))
       ∧ (∀ q : jsstring,
             q ≠ provider_id provider →
             hasApiKey (environment r') q = hasApiKey (environment r) q)
       ∧ filteredModels r'
         = filterModels (default [] (provider_models provider))
       ∧ state r' = match filteredModels r' with
                    | [] => normal
                    | _ :: _ => selecting_model
                    end).
Proof.
  intros Hstate Hsel Hback. unfold handle_line. cbv zeta.
  rewrite Hstate, Hback, Hsel. split.
  - intros Hshort. apply Nat.ltb_ge in Hshort. by rewrite Hshort.
  - intros Hlong. pose proof Hlong as Hlong'.
    apply Nat.ltb_lt in Hlong'. rewrite Hlong'.
    eexists. split; [done|]. simpl. repeat split.
    + apply hasApiKey_after_entry. by destruct (trim line).
    + intros envVar HenvVar. rewrite HenvVar. unfold set_key.
      rewrite (api_key_value_truthy _ _ HenvVar).
      by rewrite lookup_insert_eq.
    + intros q Hq. unfold set_key.
      destruct (getApiKeyEnvVar (provider_id provider)) as [v|] eqn:HenvVar;
        [|done].
      destruct (truthy_value v); [|done].
      unfold hasApiKey.
      destruct (get_property PROVIDER_API_KEYS q) as [v'|] eqn:Hq'; [|done].
      destruct (truthy_value v'); [|done].
      rewrite lookup_insert_ne; [done|].
      intros Heq. apply Hq. symmetry.
      by apply (api_key_env_injective (provider_id provider) q v v').
Qed.

Lemma api_key_entry_witness :
  handle_line sample_entering (str "sk-12345") sample_world
  = Continues sample_entering [].
Proof.
  apply (proj1 (api_key_entry sample_entering (str "sk-12345") sample_world
                  sample_paid eq_refl eq_refl eq_refl)).
  vm_compute. lia.
Defined.

(** X22. While a provider, a key or a model is being chosen, a line is
    never taken as a command or as a question: handling it does not close
    the interface, asks nothing of the agent and leaves the list of
    providers as it is, and the agent too unless a model is set. *)
Theorem selection_is_closed r line w :
  state r ≠ normal →
  match handle_line r line w with
  | Continues r' requests =>
      requests = []
      ∧ availableProviders r' = availableProviders r
      ∧ (agent r' = agent r
         ∨ ∃ modelString, agent r' = setModel (agent r) modelString)
  | Exits => False
  | Crashes => selectedProvider r = None
  end.
Proof.
  intros Hstate. unfold handle_line, show_models. cbv zeta.
  destruct (state r); [done|..];
    repeat case_match; simplify_eq; simpl; eauto 10.
Qed.

Lemma selection_is_closed_witness :
  match handle_line sample_choosing (str "/exit") sample_world with
  | Continues r' requests =>
      requests = []
      ∧ availableProviders r' = availableProviders sample_choosing
      ∧ (agent r' = agent sample_choosing
         ∨ ∃ modelString, agent r' = setModel (agent sample_choosing) modelString)
  | Exits => False
  | Crashes => selectedProvider sample_choosing = None
  end.
Proof.
  apply (selection_is_closed sample_choosing (str "/exit") sample_world).
  discriminate.
Defined.

Lemma trim_trim (s : jsstring) : trim (trim s) = trim s.
Proof.
  destruct (trim_split s) as (ws1 & ws2 & _ & _ & _ & Hhead & Hlast).
  by apply trim_fixed.
Qed.

Lemma startsWith_head (c p : N) (rest prefix : jsstring) :
  c ≠ p → startsWith (c :: rest) (p :: prefix) = false.
Proof. intros Hne. simpl. by destruct (N.eqb_spec c p). Qed.

Lemma back_head (input : jsstring) :
  says_back input || strict_eq input (str "0") = true →
  ∃ c rest, input = c :: rest ∧ c ≠ 47%N ∧ c ≠ 91%N.
Proof.
  intros [Hback|Hzero]%orb_true_iff.
  - destruct input as [|b [|a [|c [|k [|]]]]]; try done.
    exists b, [a; c; k]. split; [done|].
    simpl in Hback. apply andb_true_iff in Hback as [Hback _].
    apply andb_true_iff in Hback as [Hback _].
    apply andb_true_iff in Hback as [Hb _].
    unfold lowers_to in Hb. simpl in Hb. rewrite orb_false_r in Hb.
    apply orb_true_iff in Hb as [Hb|Hb]; apply N.eqb_eq in Hb; by subst.
  - apply bool_decide_eq_true in Hzero. subst. by exists 48%N, [].
Qed.

(** X23. The words back, in any case of its letters, and 0 lead one
    level up: from the choice of a model to the choice of a provider, and
    from the choice of a provider or the entry of a key out of the
    selection, with nothing else changed. Outside a selection they are no
    command: the line is sent to the agent as a question. *)
Theorem back_goes_up r line w :
  says_back (trim line) || strict_eq (trim line) (str "0") = true →
  handle_line r line w
  = match state r with
    | selecting_model => Continues (with_state r selecting_provider) []
    | selecting_provider | entering_api_key =>
        Continues (with_state r normal) []
    | normal =>
        let run := Earlier.query (agent r) (trim line) None (answering w) in
        Continues
          {| state := normal; availableProviders := availableProviders r;
             selectedProvider := selectedProvider r;
             filteredModels := filteredModels r;
             agent := after run; environment := environment r |}
          [Ask (trim line) None (calls run)]
    end.
Proof.
  intros Hback. unfold handle_line. cbv zeta. rewrite Hback.
  destruct (state r); try done.
  pose proof (trim_trim line) as Htrim.
  destruct (back_head _ Hback) as (c & rest & Hinput & Hslash & Hbracket).
  rewrite Hinput in *.
  change (str "/exit") with (47%N :: str "exit").
  change (str "/model") with (47%N :: str "model").
  change (str "/models") with (47%N :: str "models").
  change (str "/mode") with (47%N :: str "mode").
  rewrite !startsWith_head by done. cbn [orb]. rewrite Htrim.
  assert (parseInput (c :: rest)
          = {| parsed_source := None; parsed_query := c :: rest |}) as ->; [|done].
  unfold parseInput, sourceMatch.
  destruct (N.eqb_spec c 91) as [->|_]; [done|]. by rewrite Htrim.
Qed.

Lemma back_goes_up_witness :
  handle_line sample_choosing (str " BacK ") sample_world
  = Continues (with_state sample_choosing selecting_provider) [].
Proof.
  apply (back_goes_up sample_choosing (str " BacK ") sample_world).
  reflexivity.
Defined.

(** ** The [/mode] command *)

Lemma join_cons (separator piece next : jsstring) (pieces : list jsstring) :
  Earlier.join separator (piece :: next :: pieces)
  = piece ++ separator ++ Earlier.join separator (next :: pieces).
Proof. done. Qed.

Lemma split_on_pieces sep (s : jsstring) :
  Forall (λ piece, sep ∉ piece) (split_on sep s)
  ∧ Earlier.join [sep] (split_on sep s) = s.
Proof.
  induction s as [|c s [IHall IHjoin]]; simpl.
  { split; [|done]. constructor; [apply not_elem_of_nil|constructor]. }
  destruct (split_on_first sep s) as (first & rest & Hs).
  rewrite Hs in *.
  destruct (N.eqb_spec c sep) as [->|Hne].
  - split; [constructor; [apply not_elem_of_nil|done]|].
    by rewrite join_cons, IHjoin.
  - apply Forall_cons in IHall as [Hpiece Hpieces]. split.
    + constructor; [|done]. by apply not_elem_of_cons.
    + destruct rest as [|next rest]; [simpl in *; by subst|].
      rewrite join_cons in *. by rewrite <- IHjoin.
Qed.

Lemma startsWith_app_l (s behind prefix : jsstring) :
  startsWith s prefix = true → startsWith (s ++ behind) prefix = true.
Proof.
  revert s. induction prefix as [|p prefix IH]; intros s.
  { by destruct s, behind. }
  destruct s as [|c s]; [done|]. simpl.
  intros [-> H]%andb_true_iff. by rewrite IH.
Qed.

Lemma startsWith_before sep (s behind prefix : jsstring) :
  sep ∉ prefix →
  startsWith (s ++ sep :: behind) prefix = true → startsWith s prefix = true.
Proof.
  revert s. induction prefix as [|p prefix IH]; intros s Hsep.
  { by destruct s. }
  apply not_elem_of_cons in Hsep as [Hne Hsep].
  destruct s as [|c s]; simpl.
  - intros [Heq _]%andb_true_iff. apply N.eqb_eq in Heq. congruence.
  - intros [-> H]%andb_true_iff. by rewrite (IH s).
Qed.

Lemma startsWith_prefix (s prefix : jsstring) :
  startsWith s prefix = true → ∃ rest, s = prefix ++ rest.
Proof.
  revert s. induction prefix as [|p prefix IH]; intros s; [by exists s|].
  destruct s as [|c s]; [done|]. simpl.
  intros [->%N.eqb_eq (rest & ->)%IH]%andb_true_iff. by exists rest.
Qed.

(** X24. The thinking mode changes only by a line, outside a selection,
    made of a word that begins with /mode but not with /model, one space
    and the name low, medium or high of the new mode; the model is left
    as it is. Every such line, outside a selection, sets the mode named
    and does nothing else, whatever follows /mode in its word: /modes
    and /mode-x do as /mode does. *)
Theorem mode_command r line w :
  (∀ r' requests,
      handle_line r line w = Continues r' requests →
      _currentMode (agent r') ≠ _currentMode (agent r) →
      state r = normal ∧ requests = []
      ∧ _currentModel (agent r') = _currentModel (agent r)
      ∧ ∃ command,
          trim line = command ++ 32%N :: mode_name (_currentMode (agent r'))
          ∧ (32%N ∉ command)
          ∧ startsWith command (str "/mode") = true
          ∧ startsWith command (str "/model") = false)
  ∧ (∀ mode,
        state r = normal →
        handle_line r (str "/mode" ++ 32%N :: mode_name mode) w
        = Continues
            {| state := normal; availableProviders := availableProviders r;
               selectedProvider := selectedProvider r;
               filteredModels := filteredModels r;
               agent := setThinkingMode (agent r) mode;
               environment := environment r |}
            [])
  ∧ (∀ command mode,
        state r = normal →
        trim line = command ++ 32%N :: mode_name mode →
        (32%N ∉ command) →
        startsWith command (str "/mode") = true →
        startsWith command (str "/model") = false →
        handle_line r line w
        = Continues
            {| state := normal; availableProviders := availableProviders r;
               selectedProvider := selectedProvider r;
               filteredModels := filteredModels r;
               agent := setThinkingMode (agent r) mode;
               environment := environment r |}
            []).
Proof.
  split; [|split].
  - intros r' requests. unfold handle_line. cbv zeta.
    destruct (state r) eqn:Hstate.
    + destruct (startsWith _ (str "/exit")); [done|].
      destruct (startsWith (trim line) (str "/model")) eqn:Hmodel.
      { simpl. destruct (getAvailableModels _ _) as [[|p providers]| |];
          by intros [= <- <-]. }
      rewrite orb_false_l.
      destruct (startsWith (trim line) (str "/models")).
      { destruct (getAvailableModels _ _) as [[|p providers]| |];
          by intros [= <- <-]. }
      destruct (startsWith _ (str "/mode")) eqn:Hmode.
      * destruct (split_on 32 (trim line)) as [|command [|name [|]]] eqn:Hsplit;
          try by intros [= <- <-].
        destruct (split_on_pieces 32 (trim line)) as [Hpieces Hjoin].
        rewrite Hsplit in Hpieces, Hjoin. simpl in Hjoin.
        apply Forall_cons in Hpieces as [Hcommand _].
        assert (startsWith command (str "/mode") = true) as Hcmd.
        { apply (startsWith_before 32 _ name); [|by rewrite Hjoin].
          by apply (bool_decide_eq_false_1 (32%N ∈ str "/mode")). }
        assert (startsWith command (str "/model") = false) as Hnot.
        { destruct (startsWith command (str "/model")) eqn:H; [|done].
          apply (startsWith_app_l _ (32%N :: name)) in H.
          rewrite Hjoin in H. congruence. }
        unfold strict_eq. repeat case_bool_decide; intros [= <- <-]; try done;
          intros _; subst name; repeat split; by eauto.
      * destruct (trim (trim line)); intros [= <- <-]; [done|]. simpl.
        intros Hne. by destruct (earlier_query_frame (agent r)
          (parsed_query (parseInput (trim line)))
          (parsed_source (parseInput (trim line))) (answering w)).
    + destruct (_ || _); [by intros [= <- <-]|].
      destruct (chosen _ _) as [provider|]; [|by intros [= <- <-]].
      destruct (_ && _); by intros [= <- <-].
    + destruct (_ || _); [by intros [= <- <-]|].
      destruct (chosen _ _) as [modelId|]; [|by intros [= <- <-]].
      destruct (selectedProvider r); [|done]. by intros [= <- <-].
    + destruct (_ || _); [by intros [= <- <-]|].
      destruct (_ <? _)%nat; [|by intros [= <- <-]].
      destruct (selectedProvider r); [|done]. by intros [= <- <-].
  - intros mode Hstate. unfold handle_line. rewrite Hstate.
    by destruct mode.
  - intros command mode Hstate Hline Hspace Hmode Hmodel.
    unfold handle_line. cbv zeta. rewrite Hstate, Hline.
    assert (startsWith (command ++ 32%N :: mode_name mode) (str "/exit") = false)
      as ->.
    { by destruct (startsWith_prefix _ _ Hmode) as (rest & ->). }
    assert (startsWith (command ++ 32%N :: mode_name mode) (str "/model") = false)
      as ->.
    { destruct (startsWith (command ++ _) (str "/model")) eqn:H; [|done].
      apply startsWith_before in H; [congruence|].
      by apply (bool_decide_eq_false_1 (32%N ∈ str "/model")). }
    assert (startsWith (command ++ 32%N :: mode_name mode) (str "/models") = false)
      as ->.
    { destruct (startsWith (command ++ _) (str "/models")) eqn:H; [|done].
      apply startsWith_before in H;
        [|by apply (bool_decide_eq_false_1 (32%N ∈ str "/models"))].
      destruct (startsWith_prefix _ _ H) as (rest & ->). discriminate Hmodel. }
    rewrite (startsWith_app_l _ _ _ Hmode), split_on_join by done.
    by destruct mode.
Qed.

Lemma mode_command_witness :
  handle_line sample_choosing (str "/mode" ++ 32%N :: mode_name high) sample_world
  = handle_line sample_choosing (str "/mode high") sample_world
  ∧ handle_line (repl_start (started None (str "zai/glm-4.7")) ∅)
      (str "/mode" ++ 32%N :: mode_name high) sample_world
    = Continues
        {| state := normal; availableProviders := [];
           selectedProvider := None; filteredModels := [];
           agent := setThinkingMode (started None (str "zai/glm-4.7")) high;
           environment := ∅ |}
        []
  ∧ handle_line (repl_start (started None (str "zai/glm-4.7")) ∅)
      (str " /modes high ") sample_world
    = Continues
        {| state := normal; availableProviders := [];
           selectedProvider := None; filteredModels := [];
           agent := setThinkingMode (started None (str "zai/glm-4.7")) high;
           environment := ∅ |}
        [].
Proof.
  split; [reflexivity|]. split.
  - apply (proj1 (proj2 (mode_command
                           (repl_start (started None (str "zai/glm-4.7")) ∅)
                           (str "/mode" ++ 32%N :: mode_name high) sample_world))
             high eq_refl).
  - apply (proj2 (proj2 (mode_command
                           (repl_start (started None (str "zai/glm-4.7")) ∅)
                           (str " /modes high ") sample_world))
             (str "/modes") high eq_refl).
    + reflexivity.
    + by apply (bool_decide_eq_false_1 (32%N ∈ str "/modes")).
    + reflexivity.
    + reflexivity.
Defined.

Lemma getAvailableModels_free_first_witness :
  ∃ free paid,
    [ {| provider_id := str "zai"; provider_models := None |};
      {| provider_id := str "openai"; provider_models := None |} ]
    = free ++ paid
    ∧ Forall (λ p, requiresApiKey (provider_id p) = false) free
    ∧ Forall (λ p, requiresApiKey (provider_id p) = true
                   ∧ is_Some (getApiKeyEnvVar (provider_id p))) paid.
Proof.
  apply (getAvailableModels_free_first
           (started None (str "google/gemini-2.5-flash"))
           (Some (Some [ {| provider_id := str "openai"; provider_models := None |};
                         {| provider_id := str "llama"; provider_models := None |};
                         {| provider_id := str "zai"; provider_models := None |} ]))).
  reflexivity.
Defined.

(** ** The two versions of [query] *)

(** X25. The query of the earlier class and the query that reads the
    event feed treat the session and the prompt alike: given the same
    answer to the creation of a session they leave the same agent, and
    apart from the subscription to the feed they make the same calls,
    with the same prompt. *)
Theorem query_versions_agree a input source env w :
  Earlier.created w = session_create env →
  after (Earlier.query a input source w) = after (query a input source env)
  ∧ calls (Earlier.query a input source w)
    = List.filter (λ c, negb (is_subscribe c)) (calls (query a input source env)).
Proof.
  intros Hcreated. unfold Earlier.query, query, session_for.
  rewrite Hcreated. destruct (client a); [|done].
  destruct (currentSessionId a) as [[|c sid]|]; simpl;
    try (destruct (session_create env); [|done]);
    by destruct (parse_model _).
Qed.

Lemma query_versions_agree_witness :
  calls (Earlier.query (started None (str "zai/glm-4.7")) (str "hi") None
           {| Earlier.created := Some (str "ses_1");
              Earlier.prompted := Earlier.PromptHangs |})
  = List.filter (λ c, negb (is_subscribe c))
      (calls (query (started None (str "zai/glm-4.7")) (str "hi") None
                {| session_create := Some (str "ses_1");
                   event_stream := {| items := []; ending := Hangs |} |})).
Proof.
  apply (query_versions_agree (started None (str "zai/glm-4.7")) (str "hi") None
           {| session_create := Some (str "ses_1");
              event_stream := {| items := []; ending := Hangs |} |}
           {| Earlier.created := Some (str "ses_1");
              Earlier.prompted := Earlier.PromptHangs |}).
  reflexivity.
Defined.

(** ** The first agent class *)

(** X26. In the first agent class a model is set for the current
    thinking mode only: it is the model in use until the mode changes,
    the other modes keep their models, and coming back to the mode brings
    the model set for it back. *)
Theorem first_setModel_per_mode (a : First.Agent) modelString mode :
  First.modelString (First.setModel a modelString) = modelString
  ∧ (First.same_mode mode (First.currentMode a) = false →
     First.modelString (First.setThinkingMode (First.setModel a modelString) mode)
     = First.models a mode
     ∧ First.modelString
         (First.setThinkingMode
            (First.setThinkingMode (First.setModel a modelString) mode)
            (First.currentMode a))
       = modelString).
Proof.
  unfold First.modelString, First.setModel, First.setThinkingMode. simpl.
  split; [by destruct (First.currentMode a)|].
  intros Hother. rewrite Hother. split; [done|].
  by destruct (First.currentMode a).
Qed.

Lemma first_setModel_per_mode_witness :
  First.modelString
    (First.setThinkingMode (First.setModel First.initial (str "zai/glm-4.7")) high)
  = str "google/gemini-3-pro-preview".
Proof.
  apply (proj2 (first_setModel_per_mode First.initial (str "zai/glm-4.7") high)).
  reflexivity.
Defined.
